(** * Auduino, the Lo-Fi granular synthesiser: a shallow embedding

    The development follows [auduino.cpp]: the three lookup tables held in
    program memory and the functions reading them, the [Note]/[Voice] data of
    the single playable voice, the MIDI handlers installed by [setup], and
    the pieces of the PWM interrupt routine that advance the phases and the
    envelopes, scale the mixed output and write the PWM register.

    Target: AVR (the file includes [avr/io.h]), so [int] is 16 bits wide and
    [uint16_t] arithmetic is carried out modulo 2^16.  Unsigned machine
    integers are values of [Z] with the wrap-around written out. *)

From Stdlib Require Import ZArith List Bool Lia Reals Lra.
Import ListNotations.

Local Open Scope Z_scope.

(** ** Fixed-width unsigned integers *)

Definition uint8_t (x : Z) : Z := x mod 256.
Definition uint16_t (x : Z) : Z := x mod 65536.

Definition is_uint8 (x : Z) : Prop := 0 <= x < 256.
Definition is_uint16 (x : Z) : Prop := 0 <= x < 65536.

(** ** Lookup tables (program memory) *)

(** Smooth logarithmic mapping. *)
Definition antilogTable : list Z :=
  [64830;64132;63441;62757;62081;61413;60751;60097;59449;58809;58176;57549;56929;56316;55709;55109;
   54515;53928;53347;52773;52204;51642;51085;50535;49991;49452;48920;48393;47871;47356;46846;46341;
   45842;45348;44859;44376;43898;43425;42958;42495;42037;41584;41136;40693;40255;39821;39392;38968;
   38548;38133;37722;37316;36914;36516;36123;35734;35349;34968;34591;34219;33850;33486;33125;32768].

(** [midiNoteToFreq], [freqToInc] and the macro [MIDI_TO_INC] of the source,
    over the real numbers: [pow(2.0, x)] is [Rpower 2 x], and the conversion
    of the (positive) double to [uint16_t] truncates. *)
Definition midiNoteToFreq (p : R) : R :=
  (Rpower 2 ((p - 69) / 12) * 440)%R.

Definition freqToInc (f accSteps sr : R) : Z :=
  uint16_t (Int_part (f * accSteps / sr + 5 / 10)%R).

Definition MIDI_TO_INC (p : Z) : Z :=
  freqToInc (midiNoteToFreq (IZR p)) 65536 31250.

(** Stepped chromatic mapping.  The 128 initialisers [MIDI_TO_INC(0)] ...
    [MIDI_TO_INC(127)] are compile-time constants; these are their values,
    the ones the source lists in the comment under the table.  That each
    entry is the value of the formula is proved further down. *)
Definition midiTable : list Z :=
  [17;18;19;20;22;23;24;26;27;29;31;32;34;36;38;41;43;46;48;51;54;58;61;65;69;73;
   77;82;86;92;97;103;109;115;122;129;137;145;154;163;173;183;194;206;218;231;
   244;259;274;291;308;326;346;366;388;411;435;461;489;518;549;581;616;652;691;
   732;776;822;871;923;978;1036;1097;1163;1232;1305;1383;1465;1552;1644;1742;
   1845;1955;2071;2195;2325;2463;2610;2765;2930;3104;3288;3484;3691;3910;4143;
   4389;4650;4927;5220;5530;5859;6207;6577;6968;7382;7821;8286;8779;9301;9854;
   10440;11060;11718;12415;13153;13935;14764;15642;16572;17557;18601;19708;20879;
   22121;23436;24830;26306].

(** Stepped pentatonic mapping. *)
Definition pentatonicTable : list Z :=
  [0;19;22;26;29;32;38;43;51;58;65;77;86;103;115;129;154;173;206;231;259;308;346;
   411;461;518;616;691;822;923;1036;1232;1383;1644;1845;2071;2463;2765;3288;
   3691;4143;4927;5530;6577;7382;8286;9854;11060;13153;14764;16572;19708;22121;26306].

(** An index is inside a table when it addresses one of its entries. *)
Definition in_table (table : list Z) (i : Z) : Prop :=
  0 <= i < Z.of_nat (length table).

Definition in_tableb (table : list Z) (i : Z) : bool :=
  (0 <=? i) && (i <? Z.of_nat (length table)).

(** The entry of a table at an index, when there is one. *)
Definition entry (table : list Z) (i : Z) : option Z :=
  if in_tableb table i then nth_error table (Z.to_nat i) else None.

Section ProgramMemory.

(** [pgm_read_word(&table[i])] loads the 16-bit word stored at that
    address.  No access in the source is guarded.  For an index outside
    the table the load returns whatever program memory holds there: that
    word is not determined by the source, and is the parameter
    [flash_outside]. *)
Variable flash_outside : list Z -> Z -> Z.

Definition pgm_read_word (table : list Z) (i : Z) : Z :=
  match entry table i with
  | Some w => w
  | None => uint16_t (flash_outside table i)
  end.

(** The index expressions of the three mapping functions.  [input] is a
    [uint16_t]; [1023 - input] and the product with 53 are computed in
    16-bit unsigned arithmetic. *)
Definition mapPhaseInc_index (input : Z) : Z := Z.land input 63.

Definition mapPhaseInc (input : Z) : Z :=
  Z.shiftr (pgm_read_word antilogTable (mapPhaseInc_index input))
           (Z.shiftr input 6).

Definition mapMidi_index (input : Z) : Z :=
  Z.shiftr (uint16_t (1023 - input)) 3.

Definition mapMidi (input : Z) : Z :=
  pgm_read_word midiTable (mapMidi_index input).

Definition mapPentatonic_index (input : Z) : Z :=
  uint8_t (Z.shiftr (uint16_t (uint16_t (1023 - input) * 53)) 10).

Definition mapPentatonic (input : Z) : Z :=
  let value := mapPentatonic_index input in
  pgm_read_word pentatonicTable value.

End ProgramMemory.

(** ** Data model *)

(** A C array of two elements, indexed by the constants 0 and 1. *)
Record array2 (A : Type) : Type := Array2 { at0 : A; at1 : A }.
Arguments Array2 {A} _ _.
Arguments at0 {A} _.
Arguments at1 {A} _.

Definition map_at0 {A} (f : A -> A) (a : array2 A) : array2 A :=
  Array2 (f (at0 a)) (at1 a).
Definition map_at1 {A} (f : A -> A) (a : array2 A) : array2 A :=
  Array2 (at0 a) (f (at1 a)).

Module Note.
Inductive Gate : Type := CLOSED | OPEN.

Record t : Type := mk { gate : Gate; number : Z; velocity : Z }.

Definition set_gate (g : Gate) (n : t) : t := mk g (number n) (velocity n).
Definition set_number (k : Z) (n : t) : t := mk (gate n) k (velocity n).
Definition set_velocity (v : Z) (n : t) : t := mk (gate n) (number n) v.

Definition Gate_eqb (a b : Gate) : bool :=
  match a, b with
  | CLOSED, CLOSED | OPEN, OPEN => true
  | _, _ => false
  end.
End Note.

Module Env.
(** Modelled from the spec: the class [Env] of [grain.h], which is not
    part of the sources at hand.  The fields [amp], [decay] and [divider]
    are the ones [auduino.cpp] assigns; the spec adds the tick counter of
    the clock divider.  [amp] is an unsigned 16-bit amplitude, the other
    three are unsigned 8-bit. *)
Record t : Type := mk { amp : Z; decay : Z; divider : Z; counter : Z }.

Definition set_amp (a : Z) (e : t) : t := mk a (decay e) (divider e) (counter e).
Definition set_decay (d : Z) (e : t) : t := mk (amp e) d (divider e) (counter e).
Definition set_divider (d : Z) (e : t) : t := mk (amp e) (decay e) d (counter e).

(** Modelled from the spec: [Env::tick] of [grain.h].  Each call
    increments the tick counter; when the counter reaches [divider] the
    counter is reset and [amp >> decay] is subtracted from [amp], floored
    at zero. *)
Definition tick (e : t) : t :=
  let c := uint8_t (counter e + 1) in
  if c =? divider e
  then mk (Z.max 0 (amp e - Z.shiftr (amp e) (decay e))) (decay e) (divider e) 0
  else mk (amp e) (decay e) (divider e) c.

Definition wf (e : t) : Prop :=
  is_uint16 (amp e) /\ is_uint8 (decay e) /\ is_uint8 (divider e) /\ is_uint8 (counter e).
End Env.

Module Phase.
(** Modelled from the spec: the class [Phase] of [phase.h], which is not
    part of the sources at hand: a 16-bit position and a 16-bit
    increment. *)
Record t : Type := mk { position : Z; inc : Z }.

Definition wf (p : t) : Prop := is_uint16 (position p) /\ is_uint16 (inc p).

(** Modelled from the spec: [Phase::setInc] replaces the increment
    unconditionally. *)
Definition setInc (v : Z) (p : t) : t := mk (position p) v.

(** Modelled from the spec: [Phase::operator++] adds the increment to the
    position with 16-bit wrap-around. *)
Definition preinc (p : t) : t := mk (uint16_t (position p + inc p)) (inc p).

(** Modelled from the spec: [Phase::hasOverflowed] compares the position
    after the increment with the position before it; a position that
    decreased has wrapped. *)
Definition hasOverflowed (before after : t) : bool :=
  position after <? position before.

(** The spec's [advance()]: [++phase] followed by [phase.hasOverflowed()],
    as the interrupt routine uses them. *)
Definition advance (p : t) : t * bool :=
  let p' := preinc p in (p', hasOverflowed p p').
End Phase.

Module Grain.
(** Modelled from the spec: the class [Grain] of [grain.h] owns one phase
    accumulator and one envelope by value. *)
Record t : Type := mk { phase : Phase.t; env : Env.t }.

Definition map_phase (f : Phase.t -> Phase.t) (g : t) : t := mk (f (phase g)) (env g).
Definition map_env (f : Env.t -> Env.t) (g : t) : t := mk (phase g) (f (env g)).
End Grain.

Module Voice.
Record t : Type := mk {
  note : Note.t;
  env : Env.t;
  sync : array2 Phase.t;
  grains : array2 Grain.t
}.

Definition map_note (f : Note.t -> Note.t) (v : t) : t :=
  mk (f (note v)) (env v) (sync v) (grains v).
Definition map_env (f : Env.t -> Env.t) (v : t) : t :=
  mk (note v) (f (env v)) (sync v) (grains v).
Definition map_sync (f : array2 Phase.t -> array2 Phase.t) (v : t) : t :=
  mk (note v) (env v) (f (sync v)) (grains v).
Definition map_grains (f : array2 Grain.t -> array2 Grain.t) (v : t) : t :=
  mk (note v) (env v) (sync v) (f (grains v)).
End Voice.

(** The global [voices[2]]; every handler and the interrupt routine work on
    [voices[0]] only. *)
Definition Voices : Type := array2 Voice.t.

(** A MIDI message with its two data bytes. *)
Record MidiMessage : Type := { data : array2 Z }.

Definition message (d0 d1 : Z) : MidiMessage := {| data := Array2 d0 d1 |}.

(** ** The MIDI handlers installed by [setup] *)

Section Handlers.

Variable flash_outside : list Z -> Z -> Z.

(** [Midi.handlers.noteOn].  [velocity << 8] is stored in the 16-bit
    [amp]; the two table indices are computed in [int] and are not
    checked. *)
Definition noteOn (message : MidiMessage) (voices : Voices) : Voices :=
  let number := at0 (data message) in
  let velocity := at1 (data message) in
  if negb (velocity =? 0) then
    let voices := map_at0 (Voice.map_note (Note.set_number number)) voices in
    let voices := map_at0 (Voice.map_note (Note.set_velocity velocity)) voices in
    let voices := map_at0 (Voice.map_note (Note.set_gate Note.OPEN)) voices in
    let voices := map_at0 (Voice.map_env (Env.set_amp (uint16_t (Z.shiftl velocity 8)))) voices in
    let voices := map_at0 (Voice.map_env (Env.set_decay 1)) voices in
    let voices := map_at0 (Voice.map_env (Env.set_divider 4)) voices in
    let voices :=
      map_at0 (Voice.map_sync (map_at0 (Phase.setInc
        (pgm_read_word flash_outside midiTable
           (Note.number (Voice.note (at0 voices)) - 24))))) voices in
    let voices :=
      map_at0 (Voice.map_sync (map_at1 (Phase.setInc
        (pgm_read_word flash_outside midiTable
           (Note.number (Voice.note (at0 voices)) - 17))))) voices in
    voices
  else if Note.number (Voice.note (at0 voices)) =? number then
    map_at0 (Voice.map_note (Note.set_gate Note.CLOSED)) voices
  else voices.

(** [Midi.handlers.noteOff]. *)
Definition noteOff (message : MidiMessage) (voices : Voices) : Voices :=
  if Note.number (Voice.note (at0 voices)) =? at0 (data message) then
    map_at0 (Voice.map_note (Note.set_gate Note.CLOSED)) voices
  else voices.

(** [Midi.handlers.controlChange]. *)
Definition controlChange (message : MidiMessage) (voices : Voices) : Voices :=
  let controller := at0 (data message) in
  let value := at1 (data message) in
  if controller =? 1 then
    (* mod wheel *)
    let voices :=
      map_at0 (Voice.map_grains (map_at0 (Grain.map_env
        (Env.set_decay (Z.shiftr value 3))))) voices in
    let voices :=
      map_at0 (Voice.map_grains (map_at1 (Grain.map_env
        (Env.set_decay (Z.shiftr value 4))))) voices in
    voices
  else if controller =? 16 then
    map_at0 (Voice.map_grains (map_at0 (Grain.map_phase
      (Phase.setInc (pgm_read_word flash_outside midiTable value))))) voices
  else if controller =? 17 then
    map_at0 (Voice.map_grains (map_at1 (Grain.map_phase
      (Phase.setInc (pgm_read_word flash_outside midiTable value))))) voices
  else voices.

End Handlers.

(** ** The PWM interrupt routine, phase and envelope steps *)

(** [++voices[0].sync[0]; ++voices[0].sync[1];] together with the two
    [hasOverflowed()] tests that decide which grain restarts. *)
Definition isr_sync (voices : Voices) : Voices * (bool * bool) :=
  let s0 := Phase.advance (at0 (Voice.sync (at0 voices))) in
  let s1 := Phase.advance (at1 (Voice.sync (at0 voices))) in
  (map_at0 (Voice.map_sync (fun _ => Array2 (fst s0) (fst s1))) voices,
   (snd s0, snd s1)).

(** The envelope step: both grain envelopes tick on every sample, the
    voice's envelope ticks only while the gate is closed. *)
Definition isr_envelopes (voices : Voices) : Voices :=
  let voices := map_at0 (Voice.map_grains (map_at0 (Grain.map_env Env.tick))) voices in
  let voices := map_at0 (Voice.map_grains (map_at1 (Grain.map_env Env.tick))) voices in
  if Note.Gate_eqb (Note.gate (Voice.note (at0 voices))) Note.CLOSED
  then map_at0 (Voice.map_env Env.tick) voices
  else voices.

(** [n] successive calls of [tick()] on one envelope. *)
Definition ticks (n : nat) (e : Env.t) : Env.t := Nat.iter n Env.tick e.

(** ** Frame conditions on the voices

    Two ways of saying which fields a handler may have altered between the
    voices [a] before and the voices [b] after.  In both, [voices[1]], the
    note, the voice's own envelope, every phase position and the amplitude,
    divider and counter of every grain envelope are the same. *)

(** Only the decay rates of the grains and the increments of the sync
    phases may differ (the wording of section 4.5 of the spec). *)
Definition differ_in_grain_decay_and_sync_inc (a b : Voices) : Prop :=
  at1 a = at1 b
  /\ Voice.note (at0 a) = Voice.note (at0 b)
  /\ Voice.env (at0 a) = Voice.env (at0 b)
  /\ Phase.position (at0 (Voice.sync (at0 a))) = Phase.position (at0 (Voice.sync (at0 b)))
  /\ Phase.position (at1 (Voice.sync (at0 a))) = Phase.position (at1 (Voice.sync (at0 b)))
  /\ Grain.phase (at0 (Voice.grains (at0 a))) = Grain.phase (at0 (Voice.grains (at0 b)))
  /\ Grain.phase (at1 (Voice.grains (at0 a))) = Grain.phase (at1 (Voice.grains (at0 b)))
  /\ (forall d, Env.set_decay d (Grain.env (at0 (Voice.grains (at0 a))))
              = Env.set_decay d (Grain.env (at0 (Voice.grains (at0 b)))))
  /\ (forall d, Env.set_decay d (Grain.env (at1 (Voice.grains (at0 a))))
              = Env.set_decay d (Grain.env (at1 (Voice.grains (at0 b))))).

(** Only the decay rates of the grains and the increments of the grain
    phases may differ (what the handler assigns). *)
Definition differ_in_grain_decay_and_grain_inc (a b : Voices) : Prop :=
  at1 a = at1 b
  /\ Voice.note (at0 a) = Voice.note (at0 b)
  /\ Voice.env (at0 a) = Voice.env (at0 b)
  /\ Voice.sync (at0 a) = Voice.sync (at0 b)
  /\ Phase.position (Grain.phase (at0 (Voice.grains (at0 a))))
     = Phase.position (Grain.phase (at0 (Voice.grains (at0 b))))
  /\ Phase.position (Grain.phase (at1 (Voice.grains (at0 a))))
     = Phase.position (Grain.phase (at1 (Voice.grains (at0 b))))
  /\ (forall d, Env.set_decay d (Grain.env (at0 (Voice.grains (at0 a))))
              = Env.set_decay d (Grain.env (at0 (Voice.grains (at0 b)))))
  /\ (forall d, Env.set_decay d (Grain.env (at1 (Voice.grains (at0 a))))
              = Env.set_decay d (Grain.env (at1 (Voice.grains (at0 b))))).

(** A silent voice: every field zero, gate closed. *)
Definition silent_voice : Voice.t :=
  Voice.mk (Note.mk Note.CLOSED 0 0) (Env.mk 0 0 0 0)
           (Array2 (Phase.mk 0 0) (Phase.mk 0 0))
           (Array2 (Grain.mk (Phase.mk 0 0) (Env.mk 0 0 0 0))
                   (Grain.mk (Phase.mk 0 0) (Env.mk 0 0 0 0))).

Definition silent_voices : Voices := Array2 silent_voice silent_voice.

(** Program memory that reads as zero outside the tables. *)
Definition blank_flash : list Z -> Z -> Z := fun _ _ => 0.

(** ** Checkers used by the proofs *)

(** Each element is smaller than the next one. *)
Fixpoint increasingb (l : list Z) : bool :=
  match l with
  | a :: tl =>
      match tl with
      | b :: _ => (a <? b) && increasingb tl
      | [] => true
      end
  | [] => true
  end.

(** With [x] the real number [440 * 2^((p-69)/12) * 65536 / 31250], the
    test [betweenb p a c] decides [a <= 2 * 31250 * x < c] in integers: the
    middle is [2 * 440 * 65536 * 2^((p-69)/12)], and raising the three
    non-negative sides to the twelfth power and multiplying by 2^69 leaves
    integers only. *)
Definition betweenb (p a c : Z) : bool :=
  (a ^ 12 * 2 ^ 69 <=? (2 * 440 * 65536) ^ 12 * 2 ^ p)
  && ((2 * 440 * 65536) ^ 12 * 2 ^ p <? c ^ 12 * 2 ^ 69).

(** [v] is the integer nearest to [x]: [v - 1/2 <= x < v + 1/2]. *)
Definition nearestb (p v : Z) : bool :=
  betweenb p ((2 * v - 1) * 31250) ((2 * v + 1) * 31250).

(** [x] stays at least 2/1000 away from both rounding boundaries of [v]. *)
Definition nearest_with_marginb (p v : Z) : bool :=
  betweenb p ((2 * v - 1) * 31250 + 125) ((2 * v + 1) * 31250 - 125).

(** Every entry of a table that starts at pitch [p] is the nearest integer
    for its pitch, and is a positive [uint16_t]. *)
Fixpoint table_nearestb (p : Z) (table : list Z) : bool :=
  match table with
  | [] => true
  | v :: tl =>
      nearestb p v && (1 <=? v) && (v <? 65536) && table_nearestb (p + 1) tl
  end.

Fixpoint table_marginb (p : Z) (table : list Z) : bool :=
  match table with
  | [] => true
  | v :: tl => nearest_with_marginb p v && (1 <=? v) && table_marginb (p + 1) tl
  end.

(** ** Further code of [auduino.cpp] *)

(** Fixed-width signed integers, two's complement. *)
Definition int8_t (x : Z) : Z := (x + 128) mod 256 - 128.

Definition is_int8 (x : Z) : Prop := -128 <= x < 128.

(** [uint16_t value = message.data[1] << 7 | message.data[0];], the 14-bit
    value of [Midi.handlers.pitchWheelChange]. *)
Definition pitchWheel_value (message : MidiMessage) : Z :=
  uint16_t (Z.lor (Z.shiftl (at1 (data message)) 7) (at0 (data message))).

Section PitchWheel.

(** [Phase::modulate] belongs to [phase.h], which is not part of the
    sources at hand; the handler is embedded over any function of the value
    and the phase it is called on. *)
Variable modulate : Z -> Phase.t -> Phase.t.

(** [Midi.handlers.pitchWheelChange]. *)
Definition pitchWheelChange (message : MidiMessage) (voices : Voices) : Voices :=
  let value := pitchWheel_value message in
  let voices := map_at0 (Voice.map_sync (map_at0 (modulate value))) voices in
  let voices := map_at0 (Voice.map_sync (map_at1 (modulate value))) voices in
  voices.

End PitchWheel.

(** The output stage of the interrupt routine.

    [int8_t scaled_output = static_cast<uint8_t>(output >> 7) - 128;] *)
Definition scaled_output (output : Z) : Z :=
  int8_t (uint8_t (Z.shiftr output 7) - 128).



(** The envelope step of the interrupt routine on [n] successive samples. *)
Definition isr_envelopes_n (n : nat) (voices : Voices) : Voices :=
  Nat.iter n isr_envelopes voices.






(** The pitch classes D, E, G, A and B. *)
Definition pentatonic_class (pitch : Z) : bool :=
  let c := pitch mod 12 in
  (c =? 2) || (c =? 4) || (c =? 7) || (c =? 9) || (c =? 11).

(** The chromatic-table entries of the pitches in those classes, in order. *)
Definition pentatonic_entries : list Z :=
  map snd (filter (fun e => pentatonic_class (fst e))
                  (combine (map Z.of_nat (seq 0 128)) midiTable)).

(** All integers from 0 below [n] pass the test. *)
Definition all_below (n : nat) (test : Z -> bool) : bool :=
  forallb test (map Z.of_nat (seq 0 n)).

(** * Properties *)

(** ** Fixed-width arithmetic *)

Lemma uint16_t_range x : is_uint16 (uint16_t x).
Proof. unfold is_uint16, uint16_t. apply Z.mod_pos_bound. lia. Qed.

Lemma uint8_t_range x : is_uint8 (uint8_t x).
Proof. unfold is_uint8, uint8_t. apply Z.mod_pos_bound. lia. Qed.

Lemma uint16_t_small x : is_uint16 x -> uint16_t x = x.
Proof. unfold is_uint16, uint16_t. intros H. now apply Z.mod_small. Qed.

Lemma uint8_t_small x : is_uint8 x -> uint8_t x = x.
Proof. unfold is_uint8, uint8_t. intros H. now apply Z.mod_small. Qed.

(** A 16-bit sum either fits or loses exactly 2^16. *)
Lemma uint16_t_add a b :
  is_uint16 a -> is_uint16 b ->
  (a + b < 65536 /\ uint16_t (a + b) = a + b) \/
  (65536 <= a + b /\ uint16_t (a + b) = a + b - 65536).
Proof.
  unfold is_uint16, uint16_t. intros Ha Hb.
  destruct (Z_lt_ge_dec (a + b) 65536) as [Hlt | Hge].
  - left. split; [exact Hlt | apply Z.mod_small; lia].
  - right. split; [lia |].
    symmetry. apply (Z.mod_unique _ _ 1); lia.
Qed.

(** ** Table lookups *)

Lemma entry_in_table table i :
  in_table table i -> exists w, entry table i = Some w.
Proof.
  unfold in_table, entry, in_tableb. intros [H0 H1].
  replace (0 <=? i) with true by (symmetry; now apply Z.leb_le).
  replace (i <? Z.of_nat (length table)) with true by (symmetry; now apply Z.ltb_lt).
  simpl. destruct (nth_error table (Z.to_nat i)) as [w |] eqn:E.
  - now exists w.
  - apply nth_error_None in E. lia.
Qed.

Lemma entry_outside table i : ~ in_table table i -> entry table i = None.
Proof.
  unfold in_table, entry, in_tableb. intros H.
  destruct (0 <=? i) eqn:E0; simpl; [| reflexivity].
  destruct (i <? Z.of_nat (length table)) eqn:E1; [| reflexivity].
  apply Z.leb_le in E0. apply Z.ltb_lt in E1. lia.
Qed.

Lemma pgm_read_word_entry flash table i w :
  entry table i = Some w -> pgm_read_word flash table i = w.
Proof. unfold pgm_read_word. now intros ->. Qed.

Lemma pgm_read_word_outside flash table i :
  ~ in_table table i -> pgm_read_word flash table i = uint16_t (flash table i).
Proof. intros H. unfold pgm_read_word. now rewrite entry_outside. Qed.

Lemma increasingb_step l :
  increasingb l = true ->
  forall i a b, nth_error l i = Some a -> nth_error l (S i) = Some b -> a < b.
Proof.
  induction l as [| x tl IH]; intros Hinc i a b Ha Hb.
  - destruct i; discriminate.
  - destruct tl as [| y tl'].
    + destruct i; discriminate.
    + simpl in Hinc. apply andb_true_iff in Hinc as [Hxy Htl].
      destruct i as [| i].
      * simpl in Ha, Hb. injection Ha as <-. injection Hb as <-.
        now apply Z.ltb_lt.
      * apply (IH Htl i); assumption.
Qed.

(** C9: for every control input in 0..1023 the index computed by
    [mapPentatonic], [(1023-input)*53 >> 10], lies in 0..52 and so inside
    the 54-entry pentatonic table (index 53, the last entry, is never
    selected), and the index computed by [mapMidi], [(1023-input) >> 3],
    lies in 0..127 and so inside the 128-entry chromatic table. *)
Theorem map_indices_in_range (input : Z) :
  0 <= input <= 1023 ->
  (mapPentatonic_index input = (1023 - input) * 53 / 1024
   /\ 0 <= mapPentatonic_index input <= 52
   /\ mapPentatonic_index input <> 53
   /\ length pentatonicTable = 54%nat
   /\ in_table pentatonicTable (mapPentatonic_index input))
  /\
  (mapMidi_index input = (1023 - input) / 8
   /\ 0 <= mapMidi_index input <= 127
   /\ length midiTable = 128%nat
   /\ in_table midiTable (mapMidi_index input)).
Proof.
  intros Hin.
  assert (Hp : mapPentatonic_index input = (1023 - input) * 53 / 1024).
  { unfold mapPentatonic_index.
    rewrite (uint16_t_small (1023 - input)) by (unfold is_uint16; lia).
    rewrite (uint16_t_small ((1023 - input) * 53)) by (unfold is_uint16; lia).
    rewrite Z.shiftr_div_pow2 by lia. change (2 ^ 10) with 1024.
    apply uint8_t_small. unfold is_uint8.
    split; [apply Z.div_pos; lia | apply Z.div_lt_upper_bound; lia]. }
  assert (Hm : mapMidi_index input = (1023 - input) / 8).
  { unfold mapMidi_index.
    rewrite (uint16_t_small (1023 - input)) by (unfold is_uint16; lia).
    rewrite Z.shiftr_div_pow2 by lia. reflexivity. }
  assert (Hpr : 0 <= (1023 - input) * 53 / 1024 <= 52).
  { split; [apply Z.div_pos; lia |].
    apply Z.lt_succ_r. apply Z.div_lt_upper_bound; lia. }
  assert (Hmr : 0 <= (1023 - input) / 8 <= 127).
  { split; [apply Z.div_pos; lia |].
    apply Z.lt_succ_r. apply Z.div_lt_upper_bound; lia. }
  split.
  - rewrite Hp. repeat split; try lia; try reflexivity.
    unfold in_table. simpl length. lia.
  - rewrite Hm. repeat split; try lia; try reflexivity.
    unfold in_table. simpl length. lia.
Qed.

(** C5: the chromatic table is strictly increasing in the pitch number: for
    every p in 0..126, [midiTable[p+1] > midiTable[p]]. *)
Theorem midiTable_strictly_increasing (p : Z) :
  0 <= p <= 126 ->
  exists lo hi,
    entry midiTable p = Some lo /\ entry midiTable (p + 1) = Some hi /\ hi > lo.
Proof.
  intros Hp.
  destruct (entry_in_table midiTable p) as [lo Hlo];
    [unfold in_table; simpl length; lia |].
  destruct (entry_in_table midiTable (p + 1)) as [hi Hhi];
    [unfold in_table; simpl length; lia |].
  exists lo, hi. repeat split; try assumption.
  apply Z.lt_gt.
  apply (increasingb_step midiTable eq_refl (Z.to_nat p)).
  - unfold entry in Hlo. destruct (in_tableb midiTable p); [exact Hlo | discriminate].
  - unfold entry in Hhi. destruct (in_tableb midiTable (p + 1)); [| discriminate].
    replace (S (Z.to_nat p)) with (Z.to_nat (p + 1)) by lia. exact Hhi.
Qed.

(** ** Phase accumulator *)

(** C1: for every 16-bit position and every 16-bit increment, advancing a
    phase accumulator wraps the position modulo 2^16, and the overflow test
    is true exactly when the wrapped position is numerically less than the
    position before the advance, which is exactly when the sum carried out
    of 16 bits; advancing once from position 65000 with increment 1000
    yields position 464 with the overflow reported. *)
Theorem phase_advance_overflow (p : Phase.t) :
  Phase.wf p ->
  let p' := fst (Phase.advance p) in
  let overflowed := snd (Phase.advance p) in
  (Phase.position p' = (Phase.position p + Phase.inc p) mod 2 ^ 16
   /\ Phase.inc p' = Phase.inc p
   /\ Phase.wf p'
   /\ (overflowed = true <-> Phase.position p' < Phase.position p)
   /\ (overflowed = true <-> 2 ^ 16 <= Phase.position p + Phase.inc p))
  /\ Phase.advance (Phase.mk 65000 1000) = (Phase.mk 464 1000, true).
Proof.
  intros [Hpos Hinc]. cbn zeta. split; [| reflexivity].
  unfold Phase.advance, Phase.hasOverflowed, Phase.preinc, Phase.wf. cbn [fst snd Phase.position Phase.inc].
  change (2 ^ 16) with 65536.
  split; [reflexivity |]. split; [reflexivity |].
  split; [split; [apply uint16_t_range | exact Hinc] |].
  rewrite Z.ltb_lt.
  destruct (uint16_t_add _ _ Hpos Hinc) as [[Hfit ->] | [Hcarry ->]];
    unfold is_uint16 in *; split; split; lia.
Qed.

(** Both sync phases of the voice advance that way in the interrupt
    routine, and nothing else of the voice changes in that step. *)
Lemma isr_sync_spec (voices : Voices) :
  let r := isr_sync voices in
  let v := at0 voices in
  let v' := at0 (fst r) in
  at0 (Voice.sync v') = fst (Phase.advance (at0 (Voice.sync v)))
  /\ at1 (Voice.sync v') = fst (Phase.advance (at1 (Voice.sync v)))
  /\ fst (snd r) = snd (Phase.advance (at0 (Voice.sync v)))
  /\ snd (snd r) = snd (Phase.advance (at1 (Voice.sync v)))
  /\ Voice.note v' = Voice.note v /\ Voice.env v' = Voice.env v
  /\ Voice.grains v' = Voice.grains v /\ at1 (fst r) = at1 voices.
Proof. cbn. repeat split. Qed.

(** ** Envelope *)

Lemma tick_amp (e : Env.t) :
  is_uint16 (Env.amp e) -> 0 <= Env.amp (Env.tick e) <= Env.amp e.
Proof.
  unfold is_uint16, Env.tick. intros Ha.
  destruct (uint8_t (Env.counter e + 1) =? Env.divider e); cbn [Env.amp]; [| lia].
  assert (0 <= Z.shiftr (Env.amp e) (Env.decay e)) by (apply Z.shiftr_nonneg; lia).
  lia.
Qed.

(** With a decay rate that is a shift count, the difference is never
    negative: the floor at zero has nothing to cut off. *)
Lemma tick_subtraction_nonneg (a d : Z) :
  0 <= a -> 0 <= d -> 0 <= a - Z.shiftr a d.
Proof.
  intros Ha Hd. rewrite Z.shiftr_div_pow2 by exact Hd.
  assert (0 < 2 ^ d) by (apply Z.pow_pos_nonneg; lia).
  assert (a / 2 ^ d <= a); [| lia].
  apply Z.div_le_upper_bound; nia.
Qed.

Lemma tick_wf (e : Env.t) : Env.wf e -> Env.wf (Env.tick e).
Proof.
  intros (Ha & Hd & Hv & Hc).
  pose proof (tick_amp e Ha) as Hamp.
  unfold Env.wf. split; [unfold is_uint16 in *; lia |].
  unfold Env.tick in *.
  destruct (uint8_t (Env.counter e + 1) =? Env.divider e); cbn [Env.decay Env.divider Env.counter];
    (split; [exact Hd | split; [exact Hv |]]);
    [unfold is_uint8; lia | apply uint8_t_range].
Qed.

Lemma ticks_S n e : ticks (S n) e = Env.tick (ticks n e).
Proof. reflexivity. Qed.

Lemma ticks_wf n e : Env.wf e -> Env.wf (ticks n e).
Proof.
  intros H. induction n as [| n IH]; [exact H |].
  rewrite ticks_S. now apply tick_wf.
Qed.

(** C7: for every envelope state and every finite sequence of [tick()]
    calls, the amplitude after the sequence is at most the amplitude before
    it and is never below zero: the subtraction of [amp >> decay] does not
    wrap. *)
Theorem env_ticks_non_increasing (e : Env.t) (n : nat) :
  Env.wf e ->
  0 <= Env.amp (ticks n e) <= Env.amp e
  /\ Env.amp (ticks (S n) e) <= Env.amp (ticks n e)
  /\ 0 <= Env.amp (ticks n e) - Z.shiftr (Env.amp (ticks n e)) (Env.decay (ticks n e))
  /\ Env.wf (ticks n e).
Proof.
  intros Hwf.
  assert (Hn : forall k, 0 <= Env.amp (ticks k e) <= Env.amp e).
  { induction k as [| k IH].
    - destruct Hwf as [Ha _]. unfold is_uint16 in Ha. simpl. lia.
    - rewrite ticks_S.
      pose proof (ticks_wf k e Hwf) as (Ha & _).
      pose proof (tick_amp _ Ha). lia. }
  pose proof (ticks_wf n e Hwf) as Hwn.
  pose proof Hwn as (Ha & Hd & _).
  split; [apply Hn |]. split; [| split; [| exact Hwn]].
  - rewrite ticks_S. apply tick_amp. exact Ha.
  - apply tick_subtraction_nonneg; unfold is_uint16, is_uint8 in *; lia.
Qed.

(** In the interrupt routine both grain envelopes tick on every sample and
    none of the three amplitudes grows; the voice's own envelope is held
    while the gate is open and ticks while it is closed. *)
Lemma isr_envelopes_spec (voices : Voices) :
  let v := at0 voices in
  let v' := at0 (isr_envelopes voices) in
  Grain.env (at0 (Voice.grains v')) = Env.tick (Grain.env (at0 (Voice.grains v)))
  /\ Grain.env (at1 (Voice.grains v')) = Env.tick (Grain.env (at1 (Voice.grains v)))
  /\ Voice.env v' =
       match Note.gate (Voice.note v) with
       | Note.CLOSED => Env.tick (Voice.env v)
       | Note.OPEN => Voice.env v
       end
  /\ (is_uint16 (Env.amp (Voice.env v)) ->
        0 <= Env.amp (Voice.env v') <= Env.amp (Voice.env v)).
Proof.
  cbn zeta. unfold isr_envelopes.
  cbn [map_at0 map_at1 at0 at1 Voice.map_grains Voice.map_env Voice.note
       Voice.env Voice.grains Grain.map_env Grain.env].
  destruct (Note.gate (Voice.note (at0 voices)));
    cbn [Note.Gate_eqb map_at0 map_at1 at0 at1 Voice.map_grains Voice.map_env
         Voice.note Voice.env Voice.grains Grain.map_env Grain.env];
    (split; [reflexivity | split; [reflexivity | split; [reflexivity |]]]);
    intros Ha; [apply tick_amp; exact Ha | unfold is_uint16 in Ha; lia].
Qed.

(** ** MIDI handlers *)

Section HandlerProperties.

Variable flash_outside : list Z -> Z -> Z.

(** What a note-on with a non-zero velocity leaves in [voices[0]]. *)
Lemma noteOn_sounding (number velocity : Z) (voices : Voices) :
  velocity <> 0 ->
  let v := at0 voices in
  noteOn flash_outside (message number velocity) voices =
  Array2
    (Voice.mk
       (Note.mk Note.OPEN number velocity)
       (Env.mk (uint16_t (Z.shiftl velocity 8)) 1 4 (Env.counter (Voice.env v)))
       (Array2
          (Phase.mk (Phase.position (at0 (Voice.sync v)))
                    (pgm_read_word flash_outside midiTable (number - 24)))
          (Phase.mk (Phase.position (at1 (Voice.sync v)))
                    (pgm_read_word flash_outside midiTable (number - 17))))
       (Voice.grains v))
    (at1 voices).
Proof.
  intros Hv. unfold noteOn. cbn [data message at0 at1].
  apply Z.eqb_neq in Hv. rewrite Hv. reflexivity.
Qed.

(** C3: the note-on with number 69 and velocity 127, arriving in any
    voice state, opens the gate with note number 69 and velocity 127, sets
    the voice's envelope to amplitude [127 << 8 = 32512], decay 1 and
    divider 4, and sets the two sync increments to the chromatic-table
    entries for the pitches 69-24 = 45 and 69-17 = 52. *)
Theorem noteOn_A4_full_velocity (voices : Voices) :
  let v := at0 (noteOn flash_outside (message 69 127) voices) in
  Voice.note v = Note.mk Note.OPEN 69 127
  /\ Env.amp (Voice.env v) = Z.shiftl 127 8
  /\ Env.amp (Voice.env v) = 32512
  /\ Env.decay (Voice.env v) = 1
  /\ Env.divider (Voice.env v) = 4
  /\ 69 - 24 = 45 /\ 69 - 17 = 52
  /\ entry midiTable 45 = Some (Phase.inc (at0 (Voice.sync v)))
  /\ entry midiTable 52 = Some (Phase.inc (at1 (Voice.sync v)))
  /\ Phase.inc (at0 (Voice.sync v)) = 231
  /\ Phase.inc (at1 (Voice.sync v)) = 346.
Proof.
  intros v. subst v.
  rewrite noteOn_sounding by discriminate.
  cbn [at0 at1 Voice.note Voice.env Voice.sync Env.amp Env.decay Env.divider Phase.inc].
  repeat split.
Qed.

(** C6: the gate state machine of the note.  A note-on with a velocity
    above zero opens the gate and overwrites the stored key number and
    velocity whatever the state was; a note-off, or a note-on with
    velocity zero, whose number is the stored key number closes the gate
    (and changes nothing else); for any other number both leave the
    voices as they were. *)
Theorem note_gate_state_machine (voices : Voices) (number velocity : Z) :
  (velocity > 0 ->
     Voice.note (at0 (noteOn flash_outside (message number velocity) voices))
     = Note.mk Note.OPEN number velocity)
  /\ (Note.number (Voice.note (at0 voices)) = number ->
        noteOff (message number velocity) voices
        = map_at0 (Voice.map_note (Note.set_gate Note.CLOSED)) voices
        /\ noteOn flash_outside (message number 0) voices
           = map_at0 (Voice.map_note (Note.set_gate Note.CLOSED)) voices
        /\ Voice.note (at0 (noteOff (message number velocity) voices))
           = Note.mk Note.CLOSED number (Note.velocity (Voice.note (at0 voices)))
        /\ Voice.note (at0 (noteOn flash_outside (message number 0) voices))
           = Note.mk Note.CLOSED number (Note.velocity (Voice.note (at0 voices))))
  /\ (Note.number (Voice.note (at0 voices)) <> number ->
        noteOff (message number velocity) voices = voices
        /\ noteOn flash_outside (message number 0) voices = voices).
Proof.
  split; [| split].
  - intros Hv. rewrite noteOn_sounding by lia. reflexivity.
  - intros Hn. subst number. unfold noteOff, noteOn. cbn [data message at0 at1].
    change (negb (0 =? 0)) with false. cbv iota.
    rewrite Z.eqb_refl.
    repeat split.
  - intros Hn. unfold noteOff, noteOn. cbn [data message at0 at1].
    change (negb (0 =? 0)) with false. cbv iota.
    apply Z.eqb_neq in Hn. rewrite Hn. split; reflexivity.
Qed.

(** C8, as the code has it: every control-change event alters only the
    decay rates of the grains (controller 1) and the increments of the
    grain phases (controllers 16 and 17).  The note, the voice's envelope,
    both sync phases, the grain positions, the other fields of the grain
    envelopes and [voices[1]] stay as they were; any other controller
    changes nothing. *)
Theorem controlChange_frame (voices : Voices) (controller value : Z) :
  let voices' := controlChange flash_outside (message controller value) voices in
  differ_in_grain_decay_and_grain_inc voices voices'
  /\ Voice.note (at0 voices') = Voice.note (at0 voices)
  /\ Voice.env (at0 voices') = Voice.env (at0 voices)
  /\ Voice.sync (at0 voices') = Voice.sync (at0 voices)
  /\ (controller = 1 ->
        Env.decay (Grain.env (at0 (Voice.grains (at0 voices')))) = Z.shiftr value 3
        /\ Env.decay (Grain.env (at1 (Voice.grains (at0 voices')))) = Z.shiftr value 4
        /\ Grain.phase (at0 (Voice.grains (at0 voices')))
           = Grain.phase (at0 (Voice.grains (at0 voices)))
        /\ Grain.phase (at1 (Voice.grains (at0 voices')))
           = Grain.phase (at1 (Voice.grains (at0 voices))))
  /\ (controller = 16 ->
        Phase.inc (Grain.phase (at0 (Voice.grains (at0 voices'))))
        = pgm_read_word flash_outside midiTable value
        /\ Grain.env (at0 (Voice.grains (at0 voices')))
           = Grain.env (at0 (Voice.grains (at0 voices)))
        /\ at1 (Voice.grains (at0 voices')) = at1 (Voice.grains (at0 voices)))
  /\ (controller = 17 ->
        Phase.inc (Grain.phase (at1 (Voice.grains (at0 voices'))))
        = pgm_read_word flash_outside midiTable value
        /\ Grain.env (at1 (Voice.grains (at0 voices')))
           = Grain.env (at1 (Voice.grains (at0 voices)))
        /\ at0 (Voice.grains (at0 voices')) = at0 (Voice.grains (at0 voices)))
  /\ (controller <> 1 -> controller <> 16 -> controller <> 17 -> voices' = voices).
Proof.
  intros voices'. subst voices'.
  unfold controlChange, differ_in_grain_decay_and_grain_inc.
  cbn [data message at0 at1].
  destruct (Z.eqb_spec controller 1) as [E1 | E1];
    [| destruct (Z.eqb_spec controller 16) as [E16 | E16];
       [| destruct (Z.eqb_spec controller 17) as [E17 | E17]]];
    cbn; repeat split; intros; try reflexivity; try lia;
    destruct voices as [v0 v1]; reflexivity.
Qed.

(** C10: the two chromatic-table lookups of the note-on handler are made
    with no bounds guard: whatever the number, the sync increments receive
    the words read at the indices [number-24] and [number-17].  For every
    note-on with velocity above zero and number at least 24 both indices
    lie inside the table's range 0..127; for a note-on that is valid at
    the interface with a number below 24 the index [number-24] is outside
    the 128-entry table, and the word stored is whatever program memory
    holds there. *)
Theorem noteOn_lookups_unguarded :
  (forall number velocity voices,
      velocity > 0 ->
      let v := at0 (noteOn flash_outside (message number velocity) voices) in
      Phase.inc (at0 (Voice.sync v))
      = pgm_read_word flash_outside midiTable (number - 24)
      /\ Phase.inc (at1 (Voice.sync v))
         = pgm_read_word flash_outside midiTable (number - 17))
  /\ (forall number velocity,
        0 < velocity <= 127 -> 24 <= number <= 127 ->
        in_table midiTable (number - 24) /\ in_table midiTable (number - 17)
        /\ 0 <= number - 24 <= 127 /\ 0 <= number - 17 <= 127)
  /\ (forall number,
        0 <= number < 24 ->
        ~ in_table midiTable (number - 24)
        /\ forall velocity voices,
             0 < velocity <= 127 ->
             Phase.inc (at0 (Voice.sync
               (at0 (noteOn flash_outside (message number velocity) voices))))
             = uint16_t (flash_outside midiTable (number - 24)))
  /\ (exists number velocity,
        0 <= number <= 127 /\ 0 < velocity <= 127 /\ number < 24
        /\ ~ in_table midiTable (number - 24)).
Proof.
  split; [| split; [| split]].
  - intros number velocity voices Hv v. subst v.
    rewrite noteOn_sounding by lia. split; reflexivity.
  - intros number velocity Hv Hn. unfold in_table. simpl length. lia.
  - intros number Hn.
    assert (Hout : ~ in_table midiTable (number - 24)).
    { unfold in_table. lia. }
    split; [exact Hout |].
    intros velocity voices Hv.
    rewrite noteOn_sounding by lia. cbn [at0 Voice.sync Phase.inc].
    now apply pgm_read_word_outside.
  - exists 0, 1. unfold in_table. simpl length. lia.
Qed.

End HandlerProperties.

(** C8, as the spec words it, fails: controller 16 with value 69 on the
    silent voices sets the increment of the first grain's phase to 923,
    a field that is neither a grain decay rate nor a sync increment. *)
Lemma controlChange_alters_grain_inc :
  ~ differ_in_grain_decay_and_sync_inc
      silent_voices (controlChange blank_flash (message 16 69) silent_voices).
Proof.
  intros (_ & _ & _ & _ & _ & Hphase & _).
  cbv in Hphase. discriminate Hphase.
Qed.

(** ** The chromatic table and its formula *)

Lemma table_nearestb_nth (table : list Z) :
  forall p, table_nearestb p table = true ->
  forall i v, nth_error table i = Some v ->
  nearestb (p + Z.of_nat i) v = true /\ 1 <= v < 65536.
Proof.
  induction table as [| w tl IH]; intros p H i v Hi.
  - destruct i; discriminate.
  - simpl in H.
    apply andb_true_iff in H as [H Htl].
    apply andb_true_iff in H as [H Hhi].
    apply andb_true_iff in H as [Hnear Hlo].
    destruct i as [| i].
    + simpl in Hi. injection Hi as <-.
      rewrite Z.add_0_r. apply Z.leb_le in Hlo. apply Z.ltb_lt in Hhi. auto.
    + simpl in Hi. destruct (IH (p + 1) Htl i v Hi) as [Hn Hr].
      split; [| exact Hr].
      replace (p + Z.of_nat (S i)) with (p + 1 + Z.of_nat i) by lia. exact Hn.
Qed.

Section ChromaticFormula.

Local Open Scope R_scope.

Lemma pow_lt_strict (x y : R) (n : nat) :
  0 <= x < y -> (0 < n)%nat -> x ^ n < y ^ n.
Proof.
  intros [Hx Hxy] Hn. induction n as [| n IH]; [lia |].
  destruct n as [| n].
  - simpl. lra.
  - assert (Hlt : x ^ S n < y ^ S n) by (apply IH; lia).
    assert (Hpx : 0 <= x ^ S n) by (apply pow_le; exact Hx).
    change (x * x ^ S n < y * y ^ S n).
    apply Rle_lt_trans with (x * y ^ S n).
    + apply Rmult_le_compat_l; lra.
    + apply Rmult_lt_compat_r; lra.
Qed.

Lemma pow_le_inv (x y : R) (n : nat) :
  0 <= y -> (0 < n)%nat -> x ^ n <= y ^ n -> x <= y.
Proof.
  intros Hy Hn H. destruct (Rle_lt_dec x y) as [Hle | Hlt]; [exact Hle |].
  pose proof (pow_lt_strict y x n (conj Hy Hlt) Hn). lra.
Qed.

Lemma pow_lt_inv (x y : R) (n : nat) :
  0 <= x -> x ^ n < y ^ n -> 0 <= y -> x < y.
Proof.
  intros Hx H Hy. destruct (Rlt_le_dec x y) as [Hlt | Hle]; [exact Hlt |].
  pose proof (pow_incr y x n (conj Hy Hle)). lra.
Qed.

Lemma Rpower_2_nat (n : nat) : Rpower 2 (INR n) = 2 ^ n.
Proof. apply Rpower_pow. lra. Qed.

(** The twelfth power of the semitone factor [2^((p-69)/12)], cleared of
    its denominator. *)
Lemma semitone_pow12 (p : Z) :
  (0 <= p)%Z ->
  Rpower 2 ((IZR p - 69) / 12) ^ 12 * 2 ^ 69 = 2 ^ Z.to_nat p.
Proof.
  intros Hp.
  assert (H2 : 0 < Rpower 2 ((IZR p - 69) / 12)) by (unfold Rpower; apply exp_pos).
  rewrite <- (Rpower_pow 12 _ H2).
  rewrite Rpower_mult.
  replace ((IZR p - 69) / 12 * INR 12) with (IZR p - 69).
  2:{ rewrite INR_IZR_INZ. change (IZR (Z.of_nat 12)) with 12. field. }
  rewrite <- (Rpower_2_nat 69).
  rewrite <- Rpower_plus.
  replace (IZR p - 69 + INR 69) with (INR (Z.to_nat p)).
  2:{ rewrite !INR_IZR_INZ. rewrite Z2Nat.id by exact Hp.
      change (IZR (Z.of_nat 69)) with 69. ring. }
  apply Rpower_2_nat.
Qed.

Lemma IZR_pow_nat (z : Z) (n : nat) : IZR (z ^ Z.of_nat n) = IZR z ^ n.
Proof. symmetry. apply pow_IZR. Qed.

(** The integer test [betweenb] brackets the scaled semitone factor. *)
Lemma betweenb_sound (p a c : Z) :
  (0 <= p)%Z -> (0 <= a)%Z -> (0 <= c)%Z -> betweenb p a c = true ->
  IZR a <= 2 * 440 * 65536 * Rpower 2 ((IZR p - 69) / 12) < IZR c.
Proof.
  intros Hp Ha Hc Hb.
  unfold betweenb in Hb. apply andb_true_iff in Hb as [Hlo Hhi].
  apply Z.leb_le in Hlo. apply Z.ltb_lt in Hhi.
  apply IZR_le in Hlo. apply IZR_lt in Hhi.
  replace p with (Z.of_nat (Z.to_nat p)) in Hlo, Hhi by (apply Z2Nat.id; exact Hp).
  change 12%Z with (Z.of_nat 12) in Hlo, Hhi.
  change 69%Z with (Z.of_nat 69) in Hlo, Hhi.
  rewrite !mult_IZR, !IZR_pow_nat in Hlo, Hhi.
  rewrite !mult_IZR in Hlo, Hhi.
  set (r := Rpower 2 ((IZR p - 69) / 12)).
  assert (Hr : 0 < r) by (unfold r, Rpower; apply exp_pos).
  pose proof (semitone_pow12 p Hp) as H12. fold r in H12.
  rewrite <- H12 in Hlo, Hhi.
  assert (Ha' : 0 <= IZR a) by (apply IZR_le; exact Ha).
  assert (Hc' : 0 <= IZR c) by (apply IZR_le; exact Hc).
  assert (H69 : 0 < 2 ^ 69) by (apply pow_lt; lra).
  split.
  - apply (pow_le_inv _ _ 12); [nra | lia |].
    rewrite (Rpow_mult_distr (2 * 440 * 65536) r).
    apply (Rmult_le_reg_r (2 ^ 69)); [exact H69 |].
    rewrite Rmult_assoc. exact Hlo.
  - apply (pow_lt_inv _ _ 12); [nra | | exact Hc'].
    rewrite (Rpow_mult_distr (2 * 440 * 65536) r).
    apply (Rmult_lt_reg_r (2 ^ 69)); [exact H69 |].
    rewrite Rmult_assoc. exact Hhi.
Qed.

(** The integer test [nearestb] decides the value of [MIDI_TO_INC]. *)
Lemma MIDI_TO_INC_nearest (p v : Z) :
  (0 <= p)%Z -> (1 <= v < 65536)%Z -> nearestb p v = true ->
  MIDI_TO_INC p = v.
Proof.
  intros Hp Hv Hb.
  apply betweenb_sound in Hb; [| lia ..].
  rewrite !mult_IZR, minus_IZR, plus_IZR, !mult_IZR in Hb.
  unfold MIDI_TO_INC, freqToInc, midiNoteToFreq.
  rewrite <- (Int_part_spec
                (Rpower 2 ((IZR p - 69) / 12) * 440 * 65536 / 31250 + 5 / 10) v).
  - apply uint16_t_small. unfold is_uint16. lia.
  - split; lra.
Qed.

(** The margin test keeps the real value of the formula, before the
    truncation, 2/1000 inside the unit interval that truncates to [v]. *)
Lemma nearest_with_marginb_sound (p v : Z) :
  (0 <= p)%Z -> (1 <= v)%Z -> nearest_with_marginb p v = true ->
  IZR v + 2 / 1000
  <= midiNoteToFreq (IZR p) * 65536 / 31250 + 5 / 10
  < IZR v + 1 - 2 / 1000.
Proof.
  intros Hp Hv Hb.
  apply betweenb_sound in Hb; [| lia ..].
  rewrite minus_IZR, plus_IZR, !mult_IZR, minus_IZR, plus_IZR, !mult_IZR in Hb.
  unfold midiNoteToFreq. split; lra.
Qed.

End ChromaticFormula.

Lemma table_marginb_nth (table : list Z) :
  forall p, table_marginb p table = true ->
  forall i v, nth_error table i = Some v ->
  nearest_with_marginb (p + Z.of_nat i) v = true /\ 1 <= v.
Proof.
  induction table as [| w tl IH]; intros p H i v Hi.
  - destruct i; discriminate.
  - simpl in H.
    apply andb_true_iff in H as [H Htl].
    apply andb_true_iff in H as [Hnear Hlo].
    destruct i as [| i].
    + simpl in Hi. injection Hi as <-.
      rewrite Z.add_0_r. apply Z.leb_le in Hlo. auto.
    + simpl in Hi. destruct (IH (p + 1) Htl i v Hi) as [Hn Hr].
      split; [| exact Hr].
      replace (p + Z.of_nat (S i)) with (p + 1 + Z.of_nat i) by lia. exact Hn.
Qed.

(** The source evaluates the formula in double precision.  For every pitch
    the exact value lies at least 2/1000 away from the two integers between
    which the truncation changes, a distance many orders of magnitude above
    the rounding error of a few double operations on numbers below 2^15: the
    table over the reals is the table the compiler emits. *)
Lemma midiTable_rounding_margin (p : Z) (v : Z) :
  0 <= p <= 127 -> entry midiTable p = Some v ->
  (IZR v + 2 / 1000
   <= midiNoteToFreq (IZR p) * 65536 / 31250 + 5 / 10
   < IZR v + 1 - 2 / 1000)%R.
Proof.
  intros Hp Hv.
  assert (Hnth : nth_error midiTable (Z.to_nat p) = Some v).
  { unfold entry in Hv. destruct (in_tableb midiTable p); [exact Hv | discriminate]. }
  assert (Hall : table_marginb 0 midiTable = true) by (vm_compute; reflexivity).
  destruct (table_marginb_nth midiTable 0 Hall _ _ Hnth) as [Hnear Hrange].
  replace (0 + Z.of_nat (Z.to_nat p)) with p in Hnear by lia.
  apply nearest_with_marginb_sound; [lia | exact Hrange | exact Hnear].
Qed.

(** C4: for every pitch number p in 0..127 the chromatic-table entry
    [midiTable[p]] equals round(440 * 2^((p-69)/12) * 65536 / 31250), so a
    sync increment set from the table at pitch p reads back as exactly that
    rounded value. *)
Theorem midiTable_is_MIDI_TO_INC (flash_outside : list Z -> Z -> Z) (p : Z) :
  0 <= p <= 127 ->
  entry midiTable p = Some (MIDI_TO_INC p)
  /\ forall sync : Phase.t,
       Phase.inc (Phase.setInc (pgm_read_word flash_outside midiTable p) sync)
       = MIDI_TO_INC p.
Proof.
  intros Hp.
  destruct (entry_in_table midiTable p) as [v Hv];
    [unfold in_table; simpl length; lia |].
  assert (Hnth : nth_error midiTable (Z.to_nat p) = Some v).
  { unfold entry in Hv. destruct (in_tableb midiTable p); [exact Hv | discriminate]. }
  assert (Hall : table_nearestb 0 midiTable = true) by (vm_compute; reflexivity).
  destruct (table_nearestb_nth midiTable 0 Hall _ _ Hnth) as [Hnear Hrange].
  replace (0 + Z.of_nat (Z.to_nat p)) with p in Hnear by lia.
  assert (Heq : MIDI_TO_INC p = v) by (apply MIDI_TO_INC_nearest; [lia | exact Hrange | exact Hnear]).
  rewrite Heq. split; [exact Hv |].
  intros sync. cbn [Phase.setInc Phase.inc].
  now apply pgm_read_word_entry.
Qed.

(** ** The properties at concrete inputs *)

Lemma map_indices_in_range_at_0 :
  0 <= 0 <= 1023
  /\ mapPentatonic_index 0 = 52 /\ mapMidi_index 0 = 127.
Proof.
  split; [lia |].
  destruct (map_indices_in_range 0) as [(Hp & _) (Hm & _)]; [lia |].
  split; [rewrite Hp | rewrite Hm]; reflexivity.
Defined.

Lemma midiTable_strictly_increasing_at_68 :
  0 <= 68 <= 126
  /\ exists lo hi,
       entry midiTable 68 = Some lo /\ entry midiTable (68 + 1) = Some hi /\ hi > lo.
Proof.
  split; [lia |]. apply (midiTable_strictly_increasing 68). lia.
Defined.

Lemma phase_advance_overflow_at_65000 :
  Phase.wf (Phase.mk 65000 1000)
  /\ (snd (Phase.advance (Phase.mk 65000 1000)) = true
      <-> 2 ^ 16 <= Phase.position (Phase.mk 65000 1000) + Phase.inc (Phase.mk 65000 1000)).
Proof.
  assert (Hwf : Phase.wf (Phase.mk 65000 1000)).
  { unfold Phase.wf, is_uint16. simpl. lia. }
  split; [exact Hwf |].
  destruct (phase_advance_overflow (Phase.mk 65000 1000) Hwf) as [(_ & _ & _ & _ & H) _].
  exact H.
Defined.

Lemma env_ticks_non_increasing_after_note_on :
  Env.wf (Env.mk 32512 1 4 0)
  /\ 0 <= Env.amp (ticks 8 (Env.mk 32512 1 4 0)) <= 32512.
Proof.
  assert (Hwf : Env.wf (Env.mk 32512 1 4 0)).
  { unfold Env.wf, is_uint16, is_uint8. simpl. lia. }
  split; [exact Hwf |].
  destruct (env_ticks_non_increasing (Env.mk 32512 1 4 0) 8 Hwf) as (H & _).
  exact H.
Defined.

Lemma midiTable_is_MIDI_TO_INC_at_A4 :
  0 <= 69 <= 127 /\ entry midiTable 69 = Some (MIDI_TO_INC 69).
Proof.
  split; [lia |].
  destruct (midiTable_is_MIDI_TO_INC blank_flash 69) as [H _]; [lia | exact H].
Defined.

Lemma note_gate_state_machine_on_silent_voices :
  (100 > 0
   /\ Voice.note (at0 (noteOn blank_flash (message 60 100) silent_voices))
      = Note.mk Note.OPEN 60 100)
  /\ (Note.number (Voice.note (at0 silent_voices)) = 0
      /\ noteOff (message 0 100) silent_voices
         = map_at0 (Voice.map_note (Note.set_gate Note.CLOSED)) silent_voices)
  /\ (Note.number (Voice.note (at0 silent_voices)) <> 60
      /\ noteOff (message 60 100) silent_voices = silent_voices).
Proof.
  split; [| split].
  - split; [lia |].
    apply (proj1 (note_gate_state_machine blank_flash silent_voices 60 100)). lia.
  - split; [reflexivity |].
    apply (proj1 (proj2 (note_gate_state_machine blank_flash silent_voices 0 100))).
    reflexivity.
  - assert (Hne : Note.number (Voice.note (at0 silent_voices)) <> 60)
      by (simpl; lia).
    split; [exact Hne |].
    apply (proj2 (proj2 (note_gate_state_machine blank_flash silent_voices 60 100))).
    exact Hne.
Defined.

Lemma controlChange_frame_mod_wheel :
  1 = 1
  /\ Env.decay (Grain.env (at0 (Voice.grains
       (at0 (controlChange blank_flash (message 1 127) silent_voices))))) = Z.shiftr 127 3.
Proof.
  split; [reflexivity |].
  destruct (controlChange_frame blank_flash silent_voices 1 127)
    as (_ & _ & _ & _ & H & _).
  destruct (H eq_refl) as (Hd & _). exact Hd.
Defined.

Lemma noteOn_lookups_unguarded_at_23 :
  (0 <= 23 < 24 /\ ~ in_table midiTable (23 - 24))
  /\ (0 < 127 <= 127 /\ 24 <= 24 <= 127 /\ in_table midiTable (24 - 24)).
Proof.
  destruct (noteOn_lookups_unguarded blank_flash) as (_ & Hin & Hout & _).
  split.
  - assert (H : 0 <= 23 < 24) by lia.
    split; [exact H |]. exact (proj1 (Hout 23 H)).
  - assert (Hv : 0 < 127 <= 127) by lia.
    assert (Hn : 24 <= 24 <= 127) by lia.
    split; [exact Hv |]. split; [exact Hn |].
    exact (proj1 (Hin 24 127 Hv Hn)).
Defined.

(** * Further properties of the code *)

(** ** Helpers on ranges and tables *)

Lemma all_below_spec (n : nat) (test : Z -> bool) :
  all_below n test = true ->
  forall i, 0 <= i < Z.of_nat n -> test i = true.
Proof.
  unfold all_below. rewrite forallb_forall. intros H i Hi.
  apply H. apply in_map_iff. exists (Z.to_nat i).
  split; [lia | apply in_seq; lia].
Qed.

Lemma antitone_of_steps (f : Z -> Z) (n : Z) :
  (forall i, 0 <= i < n -> f (i + 1) <= f i) ->
  forall a b, 0 <= a <= b -> b <= n -> f b <= f a.
Proof.
  intros Hstep a b [Ha Hab] Hb.
  replace b with (a + Z.of_nat (Z.to_nat (b - a))) in * by lia.
  induction (Z.to_nat (b - a)) as [| k IH].
  - rewrite Z.add_0_r. lia.
  - replace (a + Z.of_nat (S k)) with (a + Z.of_nat k + 1) in * by lia.
    specialize (Hstep (a + Z.of_nat k)).
    assert (f (a + Z.of_nat k) <= f a) by (apply IH; lia).
    assert (f (a + Z.of_nat k + 1) <= f (a + Z.of_nat k)) by (apply Hstep; lia).
    lia.
Qed.

Lemma entry_nth_error (table : list Z) (i w : Z) :
  entry table i = Some w ->
  0 <= i /\ nth_error table (Z.to_nat i) = Some w.
Proof.
  unfold entry, in_tableb. intros H.
  destruct (0 <=? i) eqn:E0; [| discriminate].
  destruct (i <? Z.of_nat (length table)); [| discriminate].
  apply Z.leb_le in E0. auto.
Qed.

Lemma entry_some_in_table (table : list Z) (i w : Z) :
  entry table i = Some w -> in_table table i.
Proof.
  intros H. destruct (entry_nth_error _ _ _ H) as [H0 Hn].
  unfold in_table. split; [exact H0 |].
  assert (Z.to_nat i < length table)%nat by (apply nth_error_Some; congruence).
  lia.
Qed.

Lemma increasingb_lt (l : list Z) :
  increasingb l = true ->
  forall j i a b, (i < j)%nat ->
  nth_error l i = Some a -> nth_error l j = Some b -> a < b.
Proof.
  intros Hinc. induction j as [| j IH]; intros i a b Hij Ha Hb; [lia |].
  destruct (Nat.eq_dec i j) as [-> | Hne].
  - apply (increasingb_step l Hinc j); assumption.
  - destruct (nth_error l j) as [c |] eqn:Hc.
    + assert (a < c) by (apply (IH i a c); [lia | exact Ha | reflexivity]).
      assert (c < b) by (apply (increasingb_step l Hinc j); assumption).
      lia.
    + apply nth_error_None in Hc.
      assert (S j < length l)%nat by (apply nth_error_Some; congruence).
      lia.
Qed.

Lemma entry_increasing (table : list Z) :
  increasingb table = true ->
  forall i j a b, i < j ->
  entry table i = Some a -> entry table j = Some b -> a < b.
Proof.
  intros Hinc i j a b Hij Ha Hb.
  destruct (entry_nth_error _ _ _ Ha) as [Hi Hna].
  destruct (entry_nth_error _ _ _ Hb) as [Hj Hnb].
  apply (increasingb_lt table Hinc (Z.to_nat j) (Z.to_nat i)); try assumption. lia.
Qed.

Lemma entry_monotone (table : list Z) :
  increasingb table = true ->
  forall i j a b, i <= j ->
  entry table i = Some a -> entry table j = Some b -> a <= b.
Proof.
  intros Hinc i j a b Hij Ha Hb.
  destruct (Z.eq_dec i j) as [-> | Hne].
  - rewrite Ha in Hb. injection Hb as <-. lia.
  - apply Z.lt_le_incl. apply (entry_increasing table Hinc i j); [lia | assumption ..].
Qed.

(** Each chromatic-table entry is the value of the formula at its pitch. *)
Lemma entry_midiTable_formula (p v : Z) :
  entry midiTable p = Some v -> MIDI_TO_INC p = v.
Proof.
  intros Hv. destruct (entry_nth_error _ _ _ Hv) as [Hp Hnth].
  assert (Hall : table_nearestb 0 midiTable = true) by (vm_compute; reflexivity).
  destruct (table_nearestb_nth midiTable 0 Hall _ _ Hnth) as [Hnear Hrange].
  replace (0 + Z.of_nat (Z.to_nat p)) with p in Hnear by lia.
  apply MIDI_TO_INC_nearest; assumption.
Qed.

Lemma mapPhaseInc_index_mod (input : Z) : mapPhaseInc_index input = input mod 64.
Proof.
  unfold mapPhaseInc_index. change 63 with (Z.ones 6).
  rewrite Z.land_ones by lia. reflexivity.
Qed.

Lemma mapMidi_index_div (input : Z) :
  0 <= input <= 1023 -> mapMidi_index input = (1023 - input) / 8.
Proof.
  intros H. unfold mapMidi_index.
  rewrite uint16_t_small by (unfold is_uint16; lia).
  rewrite Z.shiftr_div_pow2 by lia. reflexivity.
Qed.

Lemma mapPentatonic_index_div (input : Z) :
  0 <= input <= 1023 -> mapPentatonic_index input = (1023 - input) * 53 / 1024.
Proof.
  intros H. unfold mapPentatonic_index.
  rewrite (uint16_t_small (1023 - input)) by (unfold is_uint16; lia).
  rewrite (uint16_t_small ((1023 - input) * 53)) by (unfold is_uint16; lia).
  rewrite Z.shiftr_div_pow2 by lia. change (2 ^ 10) with 1024.
  apply uint8_t_small. unfold is_uint8.
  split; [apply Z.div_pos; lia | apply Z.div_lt_upper_bound; lia].
Qed.

(** ** The smooth mapping [mapPhaseInc] *)

(** The index [input & 0x3f] never leaves the 64-entry table, so the read
    does not depend on what lies outside it. *)
Lemma mapPhaseInc_reads_table (flash : list Z -> Z -> Z) (input : Z) :
  exists w,
    entry antilogTable (input mod 64) = Some w
    /\ mapPhaseInc flash input = Z.shiftr w (Z.shiftr input 6).
Proof.
  destruct (entry_in_table antilogTable (input mod 64)) as [w Hw].
  { unfold in_table. simpl length. apply Z.mod_pos_bound. lia. }
  exists w. split; [exact Hw |].
  unfold mapPhaseInc. rewrite mapPhaseInc_index_mod.
  now rewrite (pgm_read_word_entry _ _ _ _ Hw).
Qed.

Lemma mapPhaseInc_any_flash (flash : list Z -> Z -> Z) (input : Z) :
  mapPhaseInc flash input = mapPhaseInc blank_flash input.
Proof.
  destruct (mapPhaseInc_reads_table flash input) as (w & Hw & ->).
  destruct (mapPhaseInc_reads_table blank_flash input) as (w' & Hw' & ->).
  congruence.
Qed.

(** X1: for every control input in 0..1023 [mapPhaseInc] reads inside the
    antilog table, at index [input mod 64], returns that entry divided by
    2^(input / 64), and the increment it returns lies in 1..64830: it is
    never zero. *)
Theorem mapPhaseInc_value_and_range (flash : list Z -> Z -> Z) (input : Z) :
  0 <= input <= 1023 ->
  in_table antilogTable (mapPhaseInc_index input)
  /\ (exists w, entry antilogTable (input mod 64) = Some w
                /\ mapPhaseInc flash input = w / 2 ^ (input / 64))
  /\ 1 <= mapPhaseInc flash input <= 64830.
Proof.
  intros Hin. split; [| split].
  - rewrite mapPhaseInc_index_mod. unfold in_table. simpl length.
    apply Z.mod_pos_bound. lia.
  - destruct (mapPhaseInc_reads_table flash input) as (w & Hw & Heq).
    exists w. split; [exact Hw |]. rewrite Heq.
    rewrite (Z.shiftr_div_pow2 input 6) by lia.
    assert (0 <= input / 2 ^ 6) by (apply Z.div_pos; lia).
    rewrite Z.shiftr_div_pow2 by assumption. reflexivity.
  - rewrite mapPhaseInc_any_flash.
    assert (Hall : all_below 1024
              (fun i => (1 <=? mapPhaseInc blank_flash i)
                        && (mapPhaseInc blank_flash i <=? 64830)) = true)
      by (vm_compute; reflexivity).
    pose proof (all_below_spec _ _ Hall input) as H. cbv beta in H.
    destruct (andb_prop _ _ (H ltac:(simpl; lia))) as [H1 H2].
    apply Z.leb_le in H1. apply Z.leb_le in H2. lia.
Qed.

(** X2: 64 steps of the control input are one octave: for every input in
    0..959, [mapPhaseInc (input + 64)] is half of [mapPhaseInc input],
    rounded down. *)
Theorem mapPhaseInc_octave (flash : list Z -> Z -> Z) (input : Z) :
  0 <= input <= 959 ->
  mapPhaseInc flash (input + 64) = mapPhaseInc flash input / 2.
Proof.
  intros Hin.
  destruct (mapPhaseInc_reads_table flash input) as (w & Hw & ->).
  destruct (mapPhaseInc_reads_table flash (input + 64)) as (w' & Hw' & ->).
  replace ((input + 64) mod 64) with (input mod 64) in Hw'
    by (replace (input + 64) with (input + 1 * 64) by lia;
        now rewrite Z.mod_add by lia).
  assert (w' = w) by congruence. subst w'.
  rewrite !(Z.shiftr_div_pow2 _ 6) by lia. change (2 ^ 6) with 64.
  replace ((input + 64) / 64) with (input / 64 + 1)
    by (replace (input + 64) with (input + 1 * 64) by lia;
        now rewrite Z.div_add by lia).
  assert (0 <= input / 64) by (apply Z.div_pos; lia).
  rewrite <- Z.shiftr_shiftr by lia.
  rewrite (Z.shiftr_div_pow2 _ 1) by lia. reflexivity.
Qed.

(** X3: over the control range 0..1023 [mapPhaseInc] never increases: a
    larger input gives an increment that is smaller or equal. *)
Theorem mapPhaseInc_antitone (flash : list Z -> Z -> Z) (a b : Z) :
  0 <= a <= b -> b <= 1023 ->
  mapPhaseInc flash b <= mapPhaseInc flash a.
Proof.
  intros Hab Hb.
  rewrite (mapPhaseInc_any_flash flash a), (mapPhaseInc_any_flash flash b).
  apply (antitone_of_steps (mapPhaseInc blank_flash) 1023); try assumption.
  intros i Hi.
  assert (Hall : all_below 1023
            (fun i => mapPhaseInc blank_flash (i + 1) <=? mapPhaseInc blank_flash i) = true)
    by (vm_compute; reflexivity).
  pose proof (all_below_spec _ _ Hall i) as H. cbv beta in H.
  apply Z.leb_le. apply H. simpl. lia.
Qed.

(** ** The stepped mappings [mapMidi] and [mapPentatonic] *)

Lemma mapMidi_reads_table (flash : list Z -> Z -> Z) (input : Z) :
  0 <= input <= 1023 ->
  entry midiTable ((1023 - input) / 8) = Some (mapMidi flash input).
Proof.
  intros Hin. unfold mapMidi. rewrite mapMidi_index_div by exact Hin.
  destruct (entry_in_table midiTable ((1023 - input) / 8)) as [w Hw].
  { unfold in_table. simpl length.
    split; [apply Z.div_pos; lia | apply Z.div_lt_upper_bound; lia]. }
  now rewrite (pgm_read_word_entry _ _ _ _ Hw).
Qed.

Lemma mapPentatonic_reads_table (flash : list Z -> Z -> Z) (input : Z) :
  0 <= input <= 1023 ->
  entry pentatonicTable ((1023 - input) * 53 / 1024) = Some (mapPentatonic flash input).
Proof.
  intros Hin. unfold mapPentatonic. cbv zeta.
  rewrite mapPentatonic_index_div by exact Hin.
  destruct (entry_in_table pentatonicTable ((1023 - input) * 53 / 1024)) as [w Hw].
  { unfold in_table. simpl length.
    split; [apply Z.div_pos; lia | apply Z.div_lt_upper_bound; lia]. }
  now rewrite (pgm_read_word_entry _ _ _ _ Hw).
Qed.

(** X4: for control inputs a <= b in 0..1023, [mapMidi a] is the value of
    the pitch formula at pitch [(1023 - a) / 8], [mapMidi] never increases
    with the input, and it is strictly smaller once the input is 8 or more
    steps larger. *)
Theorem mapMidi_value_and_order (flash : list Z -> Z -> Z) (a b : Z) :
  0 <= a <= b -> b <= 1023 ->
  mapMidi flash a = MIDI_TO_INC ((1023 - a) / 8)
  /\ mapMidi flash b <= mapMidi flash a
  /\ (a + 8 <= b -> mapMidi flash b < mapMidi flash a).
Proof.
  intros Hab Hb.
  pose proof (mapMidi_reads_table flash a ltac:(lia)) as Ha'.
  pose proof (mapMidi_reads_table flash b ltac:(lia)) as Hb'.
  assert (Hinc : increasingb midiTable = true) by reflexivity.
  split; [symmetry; now apply entry_midiTable_formula |].
  split.
  - assert (Hidx : (1023 - b) / 8 <= (1023 - a) / 8) by (apply Z.div_le_mono; lia).
    apply (entry_monotone midiTable Hinc _ _ _ _ Hidx Hb' Ha').
  - intros Hfar.
    apply (entry_increasing midiTable Hinc ((1023 - b) / 8) ((1023 - a) / 8));
      try assumption.
    assert ((1023 - b) / 8 + 1 <= (1023 - a) / 8); [| lia].
    replace ((1023 - b) / 8 + 1) with ((1023 - b + 1 * 8) / 8)
      by (rewrite Z.div_add by lia; reflexivity).
    apply Z.div_le_mono; lia.
Qed.

(** X5: for a 16-bit input, the index [mapMidi] reads at lies inside the
    chromatic table exactly when the input is at most 1023; every input
    above 1023 makes it read past the end of the table. *)
Theorem mapMidi_in_table_iff (input : Z) :
  is_uint16 input ->
  (in_table midiTable (mapMidi_index input) <-> input <= 1023)
  /\ (1023 < input -> 128 <= mapMidi_index input).
Proof.
  unfold is_uint16. intros Hin.
  assert (Hhigh : 1023 < input -> 128 <= mapMidi_index input).
  { intros Hgt. unfold mapMidi_index, uint16_t.
    replace ((1023 - input) mod 65536) with (1023 - input + 65536)
      by (apply (Z.mod_unique _ _ (-1)); lia).
    rewrite Z.shiftr_div_pow2 by lia. change (2 ^ 3) with 8.
    apply Z.div_le_lower_bound; lia. }
  split; [| exact Hhigh].
  split.
  - intros Htab. destruct (Z_le_gt_dec input 1023) as [Hle | Hgt]; [exact Hle |].
    unfold in_table in Htab. simpl length in Htab.
    specialize (Hhigh ltac:(lia)). lia.
  - intros Hle. rewrite mapMidi_index_div by lia.
    unfold in_table. simpl length.
    split; [apply Z.div_pos; lia | apply Z.div_lt_upper_bound; lia].
Qed.

(** X6: for control inputs a <= b in 0..1023, [mapPentatonic a] is the
    pentatonic-table entry at index [(1023 - a) * 53 / 1024], the value
    never increases with the input, and the increment is zero exactly for
    the inputs from 1004 on (the first table entry is 0). *)
Theorem mapPentatonic_value_and_order (flash : list Z -> Z -> Z) (a b : Z) :
  0 <= a <= b -> b <= 1023 ->
  entry pentatonicTable ((1023 - a) * 53 / 1024) = Some (mapPentatonic flash a)
  /\ mapPentatonic flash b <= mapPentatonic flash a
  /\ (mapPentatonic flash a = 0 <-> 1004 <= a).
Proof.
  intros Hab Hb.
  pose proof (mapPentatonic_reads_table flash a ltac:(lia)) as Ha'.
  pose proof (mapPentatonic_reads_table flash b ltac:(lia)) as Hb'.
  assert (Hinc : increasingb pentatonicTable = true) by reflexivity.
  split; [exact Ha' |]. split.
  - assert (Hidx : (1023 - b) * 53 / 1024 <= (1023 - a) * 53 / 1024)
      by (apply Z.div_le_mono; lia).
    apply (entry_monotone pentatonicTable Hinc _ _ _ _ Hidx Hb' Ha').
  - assert (H0 : entry pentatonicTable 0 = Some 0) by reflexivity.
    split.
    + intros Hz. rewrite Hz in Ha'.
      destruct (Z_lt_ge_dec 0 ((1023 - a) * 53 / 1024)) as [Hpos | Hnpos].
      * pose proof (entry_increasing pentatonicTable Hinc _ _ _ _ Hpos H0 Ha'). lia.
      * destruct (Z_le_gt_dec 1004 a) as [Hle | Hgt]; [exact Hle |].
        assert (1 <= (1023 - a) * 53 / 1024) by (apply Z.div_le_lower_bound; lia).
        lia.
    + intros Hge.
      assert (Hidx : (1023 - a) * 53 / 1024 = 0) by (apply Z.div_small; lia).
      rewrite Hidx in Ha'. congruence.
Qed.

(** X7: the pentatonic table is the zero entry followed by the
    chromatic-table entries of the pitches D, E, G, A and B (pitch classes
    2, 4, 7, 9 and 11), in order: every entry after the first is the
    chromatic entry of such a pitch, and the chromatic entry of every such
    pitch is in the pentatonic table. *)
Theorem pentatonicTable_is_D_E_G_A_B :
  pentatonicTable = 0 :: pentatonic_entries
  /\ (forall k w,
        1 <= k -> entry pentatonicTable k = Some w ->
        exists pitch, pentatonic_class pitch = true /\ entry midiTable pitch = Some w)
  /\ (forall pitch w,
        pentatonic_class pitch = true -> entry midiTable pitch = Some w ->
        exists k, 1 <= k /\ entry pentatonicTable k = Some w).
Proof.
  split; [reflexivity |]. split.
  - intros k w Hk Hw.
    pose proof (entry_some_in_table _ _ _ Hw) as Hin.
    unfold in_table in Hin. simpl length in Hin.
    assert (Hall : all_below 54 (fun k =>
              (k =? 0) ||
              match entry pentatonicTable k with
              | Some w =>
                  existsb (fun pitch =>
                             pentatonic_class pitch &&
                             match entry midiTable pitch with
                             | Some w' => w' =? w
                             | None => false
                             end) (map Z.of_nat (seq 0 128))
              | None => true
              end) = true) by (vm_compute; reflexivity).
    pose proof (all_below_spec _ _ Hall k Hin) as H. cbv beta in H.
    rewrite Hw in H.
    apply orb_true_iff in H as [H | H]; [apply Z.eqb_eq in H; lia |].
    apply existsb_exists in H as (pitch & _ & H).
    apply andb_true_iff in H as [Hc He].
    exists pitch. split; [exact Hc |].
    destruct (entry midiTable pitch) as [w' |]; [| discriminate].
    apply Z.eqb_eq in He. now subst.
  - intros pitch w Hc Hw.
    pose proof (entry_some_in_table _ _ _ Hw) as Hin.
    unfold in_table in Hin. simpl length in Hin.
    assert (Hall : all_below 128 (fun pitch =>
              negb (pentatonic_class pitch) ||
              match entry midiTable pitch with
              | Some w =>
                  existsb (fun k =>
                             (1 <=? k) &&
                             match entry pentatonicTable k with
                             | Some w' => w' =? w
                             | None => false
                             end) (map Z.of_nat (seq 0 54))
              | None => true
              end) = true) by (vm_compute; reflexivity).
    pose proof (all_below_spec _ _ Hall pitch Hin) as H. cbv beta in H.
    rewrite Hw, Hc in H. cbn [negb orb] in H.
    apply existsb_exists in H as (k & _ & H).
    apply andb_true_iff in H as [Hk He].
    exists k. split; [now apply Z.leb_le |].
    destruct (entry pentatonicTable k) as [w' |]; [| discriminate].
    apply Z.eqb_eq in He. now subst.
Qed.

(** ** More on the MIDI handlers *)

Section MoreHandlerProperties.

Variable flash_outside : list Z -> Z -> Z.

(** X8: for a note-on with velocity above zero and an 8-bit number, both
    table lookups are inside the chromatic table exactly when the number is
    in 24..144; then the two sync increments are the values of the pitch
    formula at [number-24] and [number-17], the second strictly larger than
    the first. *)
Theorem noteOn_lookups_in_table_iff (number velocity : Z) (voices : Voices) :
  is_uint8 number -> velocity > 0 ->
  ((in_table midiTable (number - 24) /\ in_table midiTable (number - 17))
   <-> 24 <= number <= 144)
  /\ (24 <= number <= 144 ->
      let v := at0 (noteOn flash_outside (message number velocity) voices) in
      Phase.inc (at0 (Voice.sync v)) = MIDI_TO_INC (number - 24)
      /\ Phase.inc (at1 (Voice.sync v)) = MIDI_TO_INC (number - 17)
      /\ Phase.inc (at0 (Voice.sync v)) < Phase.inc (at1 (Voice.sync v))).
Proof.
  unfold is_uint8. intros Hn Hv. split.
  - unfold in_table. simpl length. lia.
  - intros Hr. rewrite noteOn_sounding by lia.
    cbn [at0 at1 Voice.sync Phase.inc].
    destruct (entry_in_table midiTable (number - 24)) as [lo Hlo];
      [unfold in_table; simpl length; lia |].
    destruct (entry_in_table midiTable (number - 17)) as [hi Hhi];
      [unfold in_table; simpl length; lia |].
    rewrite (pgm_read_word_entry _ _ _ _ Hlo), (pgm_read_word_entry _ _ _ _ Hhi).
    split; [symmetry; now apply entry_midiTable_formula |].
    split; [symmetry; now apply entry_midiTable_formula |].
    apply (entry_increasing midiTable eq_refl (number - 24) (number - 17));
      [lia | assumption ..].
Qed.

(** X9: a note-on with velocity above zero overrides whatever note event
    came just before it: handled after any note-on or note-off, it leaves
    the voices exactly as if the earlier event had never arrived. *)
Theorem noteOn_overrides_earlier_event (earlier : MidiMessage)
        (number velocity : Z) (voices : Voices) :
  velocity > 0 ->
  noteOn flash_outside (message number velocity) (noteOn flash_outside earlier voices)
  = noteOn flash_outside (message number velocity) voices
  /\ noteOn flash_outside (message number velocity) (noteOff earlier voices)
     = noteOn flash_outside (message number velocity) voices.
Proof.
  intros Hv. rewrite !(noteOn_sounding flash_outside number velocity) by lia.
  cbv zeta. split.
  - unfold noteOn.
    destruct (negb (at1 (data earlier) =? 0));
      [| destruct (Note.number (Voice.note (at0 voices)) =? at0 (data earlier))];
      reflexivity.
  - unfold noteOff.
    destruct (Note.number (Voice.note (at0 voices)) =? at0 (data earlier));
      reflexivity.
Qed.

(** X10: last-note priority.  After a note-on for key [held] with velocity
    above zero, releasing another key (by note-off or by a note-on with
    velocity zero) changes nothing, so the gate stays open; releasing
    [held] closes the gate and leaves the amplitude [velocity << 8] that the
    note-on stored in the voice's envelope. *)
Theorem release_after_noteOn (held other velocity release_velocity : Z)
        (voices : Voices) :
  velocity > 0 -> is_uint8 velocity -> other <> held ->
  let sounding := noteOn flash_outside (message held velocity) voices in
  noteOff (message other release_velocity) sounding = sounding
  /\ noteOn flash_outside (message other 0) sounding = sounding
  /\ Note.gate (Voice.note (at0 sounding)) = Note.OPEN
  /\ noteOff (message held release_velocity) sounding
     = map_at0 (Voice.map_note (Note.set_gate Note.CLOSED)) sounding
  /\ Voice.note (at0 (noteOff (message held release_velocity) sounding))
     = Note.mk Note.CLOSED held velocity
  /\ Env.amp (Voice.env (at0 (noteOff (message held release_velocity) sounding)))
     = velocity * 256.
Proof.
  intros Hv Hv8 Hne sounding. subst sounding.
  rewrite noteOn_sounding by lia. cbv zeta.
  unfold noteOff, noteOn.
  cbn [data message at0 at1 Voice.note Note.number].
  change (negb (0 =? 0)) with false. cbv iota.
  rewrite Z.eqb_refl.
  assert (Hf : (held =? other) = false) by (apply Z.eqb_neq; congruence).
  rewrite Hf.
  repeat split.
  cbn [map_at0 at0 Voice.map_note Voice.env Env.amp].
  rewrite Z.shiftl_mul_pow2 by lia. change (2 ^ 8) with 256.
  apply uint16_t_small. unfold is_uint8 in Hv8. unfold is_uint16. lia.
Qed.

(** X11: control changes and note events do not interfere: handling a
    control change before or after a note-on, or a note-off, gives the same
    voices; and a control change handled twice is the same as handled
    once. *)
Theorem controlChange_commutes (note control : MidiMessage) (voices : Voices) :
  controlChange flash_outside control (noteOn flash_outside note voices)
  = noteOn flash_outside note (controlChange flash_outside control voices)
  /\ controlChange flash_outside control (noteOff note voices)
     = noteOff note (controlChange flash_outside control voices)
  /\ controlChange flash_outside control (controlChange flash_outside control voices)
     = controlChange flash_outside control voices.
Proof.
  unfold controlChange, noteOn, noteOff.
  destruct (at0 (data control) =? 1);
    [| destruct (at0 (data control) =? 16);
       [| destruct (at0 (data control) =? 17)]];
    (split; [| split]);
    cbn [map_at0 map_at1 at0 at1 Voice.map_grains Voice.map_note Voice.map_env
         Voice.map_sync Voice.note Voice.env Voice.sync Voice.grains
         Note.number Note.set_number Note.set_gate Note.set_velocity];
    try reflexivity;
    try (destruct (negb (at1 (data note) =? 0));
         [| destruct (Note.number (Voice.note (at0 voices)) =? at0 (data note))];
         reflexivity);
    try (destruct (Note.number (Voice.note (at0 voices)) =? at0 (data note));
         reflexivity).
Qed.

(** X12: a control change with a 7-bit value reads inside the chromatic
    table: controllers 16 and 17 set the increment of the first and of the
    second grain to the value of the pitch formula at pitch [value]; the
    mod wheel (controller 1) sets the two decay rates to [value / 8], in
    0..15, and [value / 16], in 0..7, the second being half the first,
    rounded down. *)
Theorem controlChange_values (value : Z) (voices : Voices) :
  0 <= value <= 127 ->
  in_table midiTable value
  /\ Phase.inc (Grain.phase (at0 (Voice.grains
       (at0 (controlChange flash_outside (message 16 value) voices)))))
     = MIDI_TO_INC value
  /\ Phase.inc (Grain.phase (at1 (Voice.grains
       (at0 (controlChange flash_outside (message 17 value) voices)))))
     = MIDI_TO_INC value
  /\ (let g := Voice.grains (at0 (controlChange flash_outside (message 1 value) voices)) in
      Env.decay (Grain.env (at0 g)) = value / 8
      /\ Env.decay (Grain.env (at1 g)) = value / 16
      /\ 0 <= Env.decay (Grain.env (at0 g)) <= 15
      /\ 0 <= Env.decay (Grain.env (at1 g)) <= 7
      /\ Env.decay (Grain.env (at1 g)) = Env.decay (Grain.env (at0 g)) / 2).
Proof.
  intros Hv.
  assert (Hin : in_table midiTable value) by (unfold in_table; simpl length; lia).
  destruct (entry_in_table midiTable value Hin) as [w Hw].
  pose proof (entry_midiTable_formula _ _ Hw) as Hf.
  split; [exact Hin |].
  unfold controlChange.
  cbn [data message at0 at1 map_at0 map_at1 Voice.map_grains Voice.grains
       Grain.map_phase Grain.map_env Grain.phase Grain.env Phase.setInc Phase.inc
       Env.set_decay Env.decay Z.eqb Pos.eqb].
  rewrite (pgm_read_word_entry _ _ _ _ Hw).
  split; [congruence |]. split; [congruence |].
  rewrite !Z.shiftr_div_pow2 by lia.
  change (2 ^ 3) with 8. change (2 ^ 4) with 16.
  assert (0 <= value / 8 <= 15)
    by (split; [apply Z.div_pos; lia | apply Z.lt_succ_r; apply Z.div_lt_upper_bound; lia]).
  assert (0 <= value / 16 <= 7)
    by (split; [apply Z.div_pos; lia | apply Z.lt_succ_r; apply Z.div_lt_upper_bound; lia]).
  repeat split; try lia.
  rewrite Z.div_div by lia. reflexivity.
Qed.

End MoreHandlerProperties.

(** ** Every field keeps a value of its type *)





(** Reduce the field accesses on updated voices. *)
Ltac voice_fields :=
  cbn [map_at0 map_at1 at0 at1
       Voice.map_note Voice.map_env Voice.map_sync Voice.map_grains
       Voice.note Voice.env Voice.sync Voice.grains
       Grain.map_env Grain.map_phase Grain.phase Grain.env
       Note.set_gate Note.set_number Note.set_velocity
       Note.gate Note.number Note.velocity
       Env.set_amp Env.set_decay Env.set_divider
       Env.amp Env.decay Env.divider Env.counter
       Phase.setInc Phase.position Phase.inc].


(** ** The pitch wheel *)

(** X14: for two 7-bit data bytes the pitch-wheel value
    [data[1] << 7 | data[0]] is [128 * data[1] + data[0]], a 14-bit number
    in 0..16383 from which both bytes can be read back, so different
    messages give different values. *)
Theorem pitchWheel_value_14bit (d0 d1 : Z) :
  0 <= d0 <= 127 -> 0 <= d1 <= 127 ->
  pitchWheel_value (message d0 d1) = 128 * d1 + d0
  /\ 0 <= pitchWheel_value (message d0 d1) <= 16383
  /\ pitchWheel_value (message d0 d1) mod 128 = d0
  /\ pitchWheel_value (message d0 d1) / 128 = d1.
Proof.
  intros H0 H1.
  assert (Hall : all_below 128 (fun d1 =>
            all_below 128 (fun d0 =>
              pitchWheel_value (message d0 d1) =? 128 * d1 + d0)) = true)
    by (vm_compute; reflexivity).
  pose proof (all_below_spec _ _ Hall d1 ltac:(simpl; lia)) as Hrow.
  cbv beta in Hrow.
  pose proof (all_below_spec _ _ Hrow d0 ltac:(simpl; lia)) as Heq.
  cbv beta in Heq. apply Z.eqb_eq in Heq. rewrite Heq.
  split; [reflexivity |]. split; [lia |]. split.
  - symmetry. apply (Z.mod_unique _ _ d1); lia.
  - symmetry. apply (Z.div_unique _ _ _ d0); lia.
Qed.

(** X15: whatever [modulate] does to a phase, the pitch-wheel handler
    passes the same 14-bit value to both sync phases and touches nothing
    else: the note, the voice's envelope, the grains and [voices[1]] are
    unchanged, and the handler commutes with note-off and with control
    change. *)
Theorem pitchWheelChange_frame (modulate : Z -> Phase.t -> Phase.t)
        (flash : list Z -> Z -> Z) (wheel other : MidiMessage) (voices : Voices) :
  let voices' := pitchWheelChange modulate wheel voices in
  Voice.sync (at0 voices')
  = Array2 (modulate (pitchWheel_value wheel) (at0 (Voice.sync (at0 voices))))
           (modulate (pitchWheel_value wheel) (at1 (Voice.sync (at0 voices))))
  /\ Voice.note (at0 voices') = Voice.note (at0 voices)
  /\ Voice.env (at0 voices') = Voice.env (at0 voices)
  /\ Voice.grains (at0 voices') = Voice.grains (at0 voices)
  /\ at1 voices' = at1 voices
  /\ pitchWheelChange modulate wheel (noteOff other voices)
     = noteOff other (pitchWheelChange modulate wheel voices)
  /\ pitchWheelChange modulate wheel (controlChange flash other voices)
     = controlChange flash other (pitchWheelChange modulate wheel voices).
Proof.
  cbv zeta. unfold pitchWheelChange.
  split; [reflexivity |]. split; [reflexivity |]. split; [reflexivity |].
  split; [reflexivity |]. split; [reflexivity |]. split.
  - unfold noteOff. voice_fields.
    destruct (Note.number (Voice.note (at0 voices)) =? at0 (data other)); reflexivity.
  - unfold controlChange.
    destruct (at0 (data other) =? 1);
      [| destruct (at0 (data other) =? 16); [| destruct (at0 (data other) =? 17)]];
      reflexivity.
Qed.

(** ** The output stage of the interrupt routine *)

Lemma int8_t_small (x : Z) : is_int8 x -> int8_t x = x.
Proof.
  unfold is_int8, int8_t. intros H.
  rewrite Z.mod_small by lia. lia.
Qed.


(** X16: for every 16-bit [output], [(uint8_t)(output >> 7) - 128] lies in
    -128..127, so storing it in the [int8_t] loses nothing.  Below 32768
    the result is [output / 128 - 128]; from 32768 on the cast to
    [uint8_t] drops bit 8 and the result starts again from -128:
    [output / 128 - 384]. *)
Theorem scaled_output_range (output : Z) :
  is_uint16 output ->
  is_int8 (scaled_output output)
  /\ scaled_output output = uint8_t (Z.shiftr output 7) - 128
  /\ (output < 32768 -> scaled_output output = output / 128 - 128)
  /\ (32768 <= output -> scaled_output output = output / 128 - 384).
Proof.
  unfold is_uint16. intros Hout.
  assert (Hq : 0 <= output / 128 < 512)
    by (split; [apply Z.div_pos; lia | apply Z.div_lt_upper_bound; lia]).
  pose proof (uint8_t_range (Z.shiftr output 7)) as Hu. unfold is_uint8 in Hu.
  assert (Heq : scaled_output output = uint8_t (Z.shiftr output 7) - 128)
    by (unfold scaled_output; apply int8_t_small; unfold is_int8; lia).
  rewrite Heq. rewrite Z.shiftr_div_pow2 in * by lia. change (2 ^ 7) with 128 in *.
  split; [unfold is_int8; lia |]. split; [reflexivity |]. split.
  - intros Hlt.
    assert (output / 128 < 256) by (apply Z.div_lt_upper_bound; lia).
    rewrite uint8_t_small by (unfold is_uint8; lia). reflexivity.
  - intros Hge.
    assert (256 <= output / 128) by (apply Z.div_le_lower_bound; lia).
    unfold uint8_t.
    replace ((output / 128) mod 256) with (output / 128 - 256)
      by (apply (Z.mod_unique _ _ 1); lia).
    lia.
Qed.




(** ** The interrupt routine over many samples *)




Lemma isr_envelopes_frame (voices : Voices) :
  Voice.note (at0 (isr_envelopes voices)) = Voice.note (at0 voices)
  /\ Voice.sync (at0 (isr_envelopes voices)) = Voice.sync (at0 voices)
  /\ Grain.phase (at0 (Voice.grains (at0 (isr_envelopes voices))))
     = Grain.phase (at0 (Voice.grains (at0 voices)))
  /\ Grain.phase (at1 (Voice.grains (at0 (isr_envelopes voices))))
     = Grain.phase (at1 (Voice.grains (at0 voices)))
  /\ at1 (isr_envelopes voices) = at1 voices.
Proof.
  unfold isr_envelopes. voice_fields.
  destruct (Note.Gate_eqb (Note.gate (Voice.note (at0 voices))) Note.CLOSED);
    repeat split.
Qed.

(** X20: over any number [n] of samples the envelope step of the interrupt
    routine holds the voice's envelope untouched while the gate is open
    (a held note sustains) and ticks it [n] times while the gate is closed
    (release); both grain envelopes tick [n] times either way, and the
    note, the sync phases, the grain phases and [voices[1]] stay as they
    were. *)
Theorem isr_envelopes_sustain_and_release (n : nat) (voices : Voices) :
  let v := at0 voices in
  let v' := at0 (isr_envelopes_n n voices) in
  Voice.env v' =
    match Note.gate (Voice.note v) with
    | Note.OPEN => Voice.env v
    | Note.CLOSED => ticks n (Voice.env v)
    end
  /\ Grain.env (at0 (Voice.grains v')) = ticks n (Grain.env (at0 (Voice.grains v)))
  /\ Grain.env (at1 (Voice.grains v')) = ticks n (Grain.env (at1 (Voice.grains v)))
  /\ Voice.note v' = Voice.note v
  /\ Voice.sync v' = Voice.sync v
  /\ Grain.phase (at0 (Voice.grains v')) = Grain.phase (at0 (Voice.grains v))
  /\ Grain.phase (at1 (Voice.grains v')) = Grain.phase (at1 (Voice.grains v))
  /\ at1 (isr_envelopes_n n voices) = at1 voices.
Proof.
  cbv zeta. induction n as [| n IH].
  - cbn [isr_envelopes_n Nat.iter ticks].
    destruct (Note.gate (Voice.note (at0 voices))); repeat split.
  - change (isr_envelopes_n (S n) voices)
      with (isr_envelopes (isr_envelopes_n n voices)).
    destruct IH as (He & Hg0 & Hg1 & Hn & Hs & Hp0 & Hp1 & H1).
    destruct (isr_envelopes_spec (isr_envelopes_n n voices)) as (Sg0 & Sg1 & Se & _).
    destruct (isr_envelopes_frame (isr_envelopes_n n voices))
      as (Fn & Fs & Fp0 & Fp1 & F1).
    rewrite Sg0, Sg1, Se, Fn, Fs, Fp0, Fp1, F1.
    rewrite Hg0, Hg1, Hn, Hs, Hp0, Hp1, H1, He.
    destruct (Note.gate (Voice.note (at0 voices))); repeat split.
Qed.

(** ** The further properties at concrete inputs *)

Lemma mapPhaseInc_value_and_range_at_100 :
  0 <= 100 <= 1023 /\ 1 <= mapPhaseInc blank_flash 100 <= 64830.
Proof.
  assert (H : 0 <= 100 <= 1023) by lia.
  split; [exact H |].
  exact (proj2 (proj2 (mapPhaseInc_value_and_range blank_flash 100 H))).
Defined.

Lemma mapPhaseInc_octave_at_0 :
  0 <= 0 <= 959 /\ mapPhaseInc blank_flash (0 + 64) = mapPhaseInc blank_flash 0 / 2.
Proof.
  assert (H : 0 <= 0 <= 959) by lia.
  split; [exact H | exact (mapPhaseInc_octave blank_flash 0 H)].
Defined.

Lemma mapPhaseInc_antitone_at_10_500 :
  (0 <= 10 <= 500 /\ 500 <= 1023)
  /\ mapPhaseInc blank_flash 500 <= mapPhaseInc blank_flash 10.
Proof.
  assert (H1 : 0 <= 10 <= 500) by lia. assert (H2 : 500 <= 1023) by lia.
  split; [split; assumption | exact (mapPhaseInc_antitone blank_flash 10 500 H1 H2)].
Defined.

Lemma mapMidi_value_and_order_at_0_8 :
  (0 <= 0 <= 8 /\ 8 <= 1023 /\ 0 + 8 <= 8)
  /\ mapMidi blank_flash 8 < mapMidi blank_flash 0.
Proof.
  assert (H1 : 0 <= 0 <= 8) by lia. assert (H2 : 8 <= 1023) by lia.
  assert (H3 : 0 + 8 <= 8) by lia.
  split; [repeat split; lia |].
  exact (proj2 (proj2 (mapMidi_value_and_order blank_flash 0 8 H1 H2)) H3).
Defined.

Lemma mapMidi_in_table_iff_at_1024 :
  (is_uint16 1024 /\ 1023 < 1024) /\ 128 <= mapMidi_index 1024.
Proof.
  assert (H1 : is_uint16 1024) by (unfold is_uint16; lia).
  assert (H2 : 1023 < 1024) by lia.
  split; [split; assumption | exact (proj2 (mapMidi_in_table_iff 1024 H1) H2)].
Defined.

Lemma mapPentatonic_value_and_order_at_1004 :
  (0 <= 1004 <= 1023 /\ 1023 <= 1023 /\ 1004 <= 1004)
  /\ mapPentatonic blank_flash 1004 = 0.
Proof.
  assert (H1 : 0 <= 1004 <= 1023) by lia. assert (H2 : 1023 <= 1023) by lia.
  assert (H3 : 1004 <= 1004) by lia.
  split; [repeat split; lia |].
  exact (proj2 (proj2 (proj2 (mapPentatonic_value_and_order blank_flash 1004 1023 H1 H2))) H3).
Defined.

Lemma pentatonicTable_is_D_E_G_A_B_at_A4 :
  (pentatonic_class 69 = true /\ entry midiTable 69 = Some 923)
  /\ exists k, 1 <= k /\ entry pentatonicTable k = Some 923.
Proof.
  assert (H1 : pentatonic_class 69 = true) by reflexivity.
  assert (H2 : entry midiTable 69 = Some 923) by reflexivity.
  split; [split; assumption |].
  exact (proj2 (proj2 pentatonicTable_is_D_E_G_A_B) 69 923 H1 H2).
Defined.

Lemma noteOn_lookups_in_table_iff_at_144 :
  (is_uint8 144 /\ 100 > 0 /\ 24 <= 144 <= 144)
  /\ Phase.inc (at1 (Voice.sync
       (at0 (noteOn blank_flash (message 144 100) silent_voices))))
     = MIDI_TO_INC (144 - 17).
Proof.
  assert (H1 : is_uint8 144) by (unfold is_uint8; lia).
  assert (H2 : 100 > 0) by lia. assert (H3 : 24 <= 144 <= 144) by lia.
  split; [repeat split; lia |].
  exact (proj1 (proj2 (proj2
           (noteOn_lookups_in_table_iff blank_flash 144 100 silent_voices H1 H2) H3))).
Defined.

Lemma noteOn_overrides_earlier_event_at_60_64 :
  100 > 0
  /\ noteOn blank_flash (message 64 100) (noteOn blank_flash (message 60 90) silent_voices)
     = noteOn blank_flash (message 64 100) silent_voices.
Proof.
  assert (H : 100 > 0) by lia.
  split; [exact H |].
  exact (proj1 (noteOn_overrides_earlier_event blank_flash (message 60 90) 64 100
                  silent_voices H)).
Defined.

Lemma release_after_noteOn_at_64_60 :
  (100 > 0 /\ is_uint8 100 /\ 60 <> 64)
  /\ noteOff (message 60 0) (noteOn blank_flash (message 64 100) silent_voices)
     = noteOn blank_flash (message 64 100) silent_voices.
Proof.
  assert (H1 : 100 > 0) by lia.
  assert (H2 : is_uint8 100) by (unfold is_uint8; lia).
  assert (H3 : 60 <> 64) by lia.
  split; [repeat split; lia |].
  exact (proj1 (release_after_noteOn blank_flash 64 60 100 0 silent_voices H1 H2 H3)).
Defined.

Lemma controlChange_values_at_69 :
  0 <= 69 <= 127
  /\ Phase.inc (Grain.phase (at0 (Voice.grains
       (at0 (controlChange blank_flash (message 16 69) silent_voices)))))
     = MIDI_TO_INC 69.
Proof.
  assert (H : 0 <= 69 <= 127) by lia.
  split; [exact H |].
  exact (proj1 (proj2 (controlChange_values blank_flash 69 silent_voices H))).
Defined.



Lemma pitchWheel_value_14bit_at_centre :
  (0 <= 0 <= 127 /\ 0 <= 64 <= 127)
  /\ pitchWheel_value (message 0 64) = 128 * 64 + 0.
Proof.
  assert (H1 : 0 <= 0 <= 127) by lia. assert (H2 : 0 <= 64 <= 127) by lia.
  split; [split; assumption | exact (proj1 (pitchWheel_value_14bit 0 64 H1 H2))].
Defined.

Lemma scaled_output_range_at_32768 :
  (is_uint16 32768 /\ 32768 <= 32768)
  /\ scaled_output 32768 = 32768 / 128 - 384.
Proof.
  assert (H1 : is_uint16 32768) by (unfold is_uint16; lia).
  assert (H2 : 32768 <= 32768) by lia.
  split; [split; assumption |].
  exact (proj2 (proj2 (proj2 (scaled_output_range 32768 H1))) H2).
Defined.



